(** * Request admission and session control layer of Gemini-2.5-flash

    Shallow embedding of
    - [src/lib/rate-limit.ts]        (token bucket with burst suppression),
    - [src/lib/cache/lru-cache.ts]   (generic LRU cache with optional TTL),
    - [src/lib/cache/chat-cache.ts]  (session store),
    - [src/unnamed/part_013], [src/lib/chat/service.ts] (history trimming).

    Conventions.  [Date.now()] is an explicit argument [now : Z] (milliseconds)
    of every operation; a JavaScript [Map<string, _>] is an association list
    kept in insertion order (module [JsMap]); JavaScript numbers that hold
    fractional token counts are exact rationals [Q] (the float64 rounding
    of the source is not modelled, so strict inequalities and exact
    equalities on token counts hold for exact arithmetic only); callbacks ([onEvict]) are
    observed through the list of (key, value) pairs they are called with. *)

From Stdlib Require Import ZArith Lia List String Bool QArith Qround Qminmax Lqa.
From Stdlib Require Import Sorting.Sorted.
Import ListNotations.
Open Scope Z_scope.

(** ** JavaScript [Map] with string keys, in insertion order *)
Module JsMap.

Definition t (A : Type) := list (string * A).

(** [Map.prototype.get] *)
Fixpoint get {A} (k : string) (m : t A) : option A :=
  match m with
  | [] => None
  | (k', v) :: r => if String.eqb k' k then Some v else get k r
  end.

(** [Map.prototype.has] *)
Definition has {A} (k : string) (m : t A) : bool :=
  match get k m with Some _ => true | None => false end.

(** [Map.prototype.set]: an existing key keeps its position, a new key is
    appended at the end of the iteration order. *)
Fixpoint set {A} (k : string) (v : A) (m : t A) : t A :=
  match m with
  | [] => [(k, v)]
  | (k', v') :: r => if String.eqb k' k then (k, v) :: r else (k', v') :: set k v r
  end.

(** [Map.prototype.delete] (the returned boolean is [has k m]). *)
Fixpoint delete {A} (k : string) (m : t A) : t A :=
  match m with
  | [] => []
  | (k', v) :: r => if String.eqb k' k then r else (k', v) :: delete k r
  end.

(** [Map.prototype.size] *)
Definition size {A} (m : t A) : Z := Z.of_nat (List.length m).

Definition keys {A} (m : t A) : list string := map fst m.

End JsMap.

(** ** [src/lib/rate-limit.ts] *)
Module RateLimit.

Open Scope Q_scope.

Record RateLimitEntry := mkEntry {
  tokens : Q;
  lastRefill : Z;
  lastRequest : option Z   (* [lastRequest?: number] *)
}.

Record CheckResult := mkResult {
  allowed : bool;
  remaining : Q;
  retryAfter : option Z
}.

(** JavaScript truthiness of [entry.lastRequest] (a number or undefined). *)
Definition truthy_num (o : option Z) : bool :=
  match o with Some n => negb (Z.eqb n 0) | None => false end.

Section Limiter.

(** [RateLimitConfig.maxTokens] and [RateLimitConfig.refillRate]. *)
Variable maxTokens refillRate : Q.

Definition Buckets := JsMap.t RateLimitEntry.

(** Lines 55-58 of [check]: the refill step, applied to the stored entry. *)
Definition refill (entry : RateLimitEntry) (now : Z) : RateLimitEntry :=
  let timePassed := inject_Z (now - lastRefill entry)%Z / 1000 in
  let tokensToAdd := timePassed * refillRate in
  mkEntry (Qmin maxTokens (tokens entry + tokensToAdd)) now (lastRequest entry).

Definition MIN_REQUEST_INTERVAL : Z := 500.

(** [RateLimiter.check(key)]; the entry object is mutated in place, which
    here is a [JsMap.set] of the updated entry under the same key. *)
Definition check (key : string) (now : Z) (buckets : Buckets)
  : CheckResult * Buckets :=
  match JsMap.get key buckets with
  | None =>
      let entry := mkEntry (maxTokens - 1) now (Some now) in
      (mkResult true (tokens entry) None, JsMap.set key entry buckets)
  | Some entry0 =>
      let entry := refill entry0 now in
      if truthy_num (lastRequest entry) &&
         match lastRequest entry with
         | Some lr => Z.ltb (now - lr) MIN_REQUEST_INTERVAL
         | None => false
         end
      then (mkResult false (inject_Z (Qfloor (tokens entry))) (Some 1%Z),
            JsMap.set key entry buckets)
      else if Qle_bool 1 (tokens entry) then
        let entry' := mkEntry (tokens entry - 1) (lastRefill entry) (Some now) in
        (mkResult true (inject_Z (Qfloor (tokens entry'))) None,
         JsMap.set key entry' buckets)
      else
        let tokensNeeded := 1 - tokens entry in
        let ra := Qceiling (tokensNeeded / refillRate) in
        (mkResult false 0 (Some ra), JsMap.set key entry buckets)
  end.

(** [RateLimiter.reset(key)] *)
Definition reset (key : string) (buckets : Buckets) : Buckets :=
  JsMap.delete key buckets.

(** [RateLimiter.cleanup()]: entries whose [lastRefill] is older than five
    minutes are deleted while iterating. *)
Definition staleThreshold : Z := 5 * 60 * 1000.

Definition cleanup (now : Z) (buckets : Buckets) : Buckets :=
  filter (fun p => negb (Z.ltb staleThreshold (now - lastRefill (snd p)))) buckets.

(** States of the bucket map reachable from a fresh limiter through any
    interleaving of [check], [reset] and the periodic [cleanup], with
    [Date.now()] positive but not necessarily monotone. *)
Inductive reachable : Buckets -> Prop :=
| reach_init : reachable []
| reach_check k now s : (0 < now)%Z -> reachable s -> reachable (snd (check k now s))
| reach_reset k s : reachable s -> reachable (reset k s)
| reach_cleanup now s : (0 < now)%Z -> reachable s -> reachable (cleanup now s).

End Limiter.

End RateLimit.

(** ** [src/lib/cache/lru-cache.ts] *)
Module LRU.

Section Cache.
Context {V : Type}.

Record CacheEntry := mkCE { value : V; timestamp : Z }.

(** [LRUCacheOptions]: [maxSize], [ttl ?? null], and whether an [onEvict]
    callback is configured. *)
Record Options := mkOptions {
  maxSize : Z;
  ttl : option Z;
  hasOnEvict : bool
}.

Definition Cache := JsMap.t CacheEntry.

(** The calls made to [onEvict], in order. *)
Definition Events := list (string * V).

Definition onEvict (o : Options) (k : string) (v : V) : Events :=
  if hasOnEvict o then [(k, v)] else [].

(** [this.ttl && now - entry.timestamp > this.ttl] ([ttl] of 0 or null is
    falsy). *)
Definition expired (o : Options) (now : Z) (e : CacheEntry) : bool :=
  match ttl o with
  | Some t => negb (Z.eqb t 0) && Z.ltb t (now - timestamp e)
  | None => false
  end.

(** [delete(key)] *)
Definition delete (o : Options) (k : string) (c : Cache) : bool * Cache * Events :=
  let ev := match JsMap.get k c with Some e => onEvict o k (value e) | None => [] end in
  (JsMap.has k c, JsMap.delete k c, ev).

(** [get(key)] *)
Definition get (o : Options) (k : string) (now : Z) (c : Cache)
  : option V * Cache * Events :=
  match JsMap.get k c with
  | None => (None, c, [])
  | Some e =>
      if expired o now e then
        let '(_, c', ev) := delete o k c in (None, c', ev)
      else
        (Some (value e), JsMap.set k (mkCE (value e) now) (JsMap.delete k c), [])
  end.

(** [set(key, value)] *)
Definition set (o : Options) (k : string) (v : V) (now : Z) (c : Cache)
  : Cache * Events :=
  let '(c1, ev) :=
    if JsMap.has k c then (JsMap.delete k c, [])
    else if Z.leb (maxSize o) (JsMap.size c) then
      match JsMap.keys c with
      | [] => (c, [])
      | firstKey :: _ =>
          let evicted := JsMap.get firstKey c in
          (JsMap.delete firstKey c,
           match evicted with Some e => onEvict o firstKey (value e) | None => [] end)
      end
    else (c, []) in
  (JsMap.set k (mkCE v now) c1, ev).

(** [has(key)]: [this.get(key) !== undefined]. *)
Definition has (o : Options) (k : string) (now : Z) (c : Cache) : bool * Cache * Events :=
  let '(r, c', ev) := get o k now c in
  (match r with Some _ => true | None => false end, c', ev).

(** [clear()] *)
Definition clear (o : Options) (c : Cache) : Cache * Events :=
  ([], if hasOnEvict o then map (fun p => (fst p, value (snd p))) c else []).

(** The loop of [prune()]: the iteration visits the entries of the map as
    they were when it started (only the visited key is ever deleted). *)
Fixpoint prune_loop (o : Options) (t now : Z) (visit : Cache) (c : Cache)
    (pruned : Z) (ev : Events) : Z * Cache * Events :=
  match visit with
  | [] => (pruned, c, ev)
  | (k, e) :: rest =>
      if Z.ltb t (now - timestamp e) then
        let '(_, c', ev') := delete o k c in
        prune_loop o t now rest c' (pruned + 1) (ev ++ ev')
      else prune_loop o t now rest c pruned ev
  end.

(** [prune()] *)
Definition prune (o : Options) (now : Z) (c : Cache) : Z * Cache * Events :=
  match ttl o with
  | Some t => if Z.eqb t 0 then (0, c, []) else prune_loop o t now c c 0 []
  | None => (0, c, [])
  end.

(** Public operations. *)
Inductive Op :=
| OGet (k : string)
| OSet (k : string) (v : V)
| ODelete (k : string)
| OClear
| OPrune
| OHas (k : string).

Definition step (o : Options) (op : Op) (now : Z) (c : Cache) : Cache * Events :=
  match op with
  | OGet k => let '(_, c', ev) := get o k now c in (c', ev)
  | OSet k v => set o k v now c
  | ODelete k => let '(_, c', ev) := delete o k c in (c', ev)
  | OClear => clear o c
  | OPrune => let '(_, c', ev) := prune o now c in (c', ev)
  | OHas k => let '(_, c', ev) := has o k now c in (c', ev)
  end.

(** Cache contents after a trace of operations, each with the time at which
    it runs. *)
Fixpoint run (o : Options) (tr : list (Op * Z)) (c : Cache) : Cache :=
  match tr with
  | [] => c
  | (op, now) :: rest => run o rest (fst (step o op now c))
  end.

End Cache.
Arguments Options : clear implicits.
Arguments Op : clear implicits.

End LRU.

(** ** [src/lib/cache/chat-cache.ts] *)
Module Sessions.
Local Open Scope string_scope.

Section Store.
(** [ChatSession] (an opaque handle) and [Content] (a history turn). *)
Context {Handle Content : Type}.

Record CachedSession := mkCS {
  session : Handle;
  lastAccessed : Z;
  createdAt : Z;
  messageCount : nat;
  history : list Content
}.

Record CacheConfig := mkConfig {
  sessionTimeout : Z;
  maxSessions : Z;
  cleanupInterval : Z
}.

Definition DEFAULT_CONFIG : CacheConfig :=
  mkConfig (30 * 60 * 1000) 1000 (5 * 60 * 1000).

Definition Store := JsMap.t CachedSession.

Definition touch (c : CachedSession) (now : Z) : CachedSession :=
  mkCS (session c) now (createdAt c) (messageCount c) (history c).

(** [SessionCache.get(userId)]; [cached.lastAccessed = Date.now()] mutates
    the stored object, which keeps its position in the map. *)
Definition get (cfg : CacheConfig) (userId : string) (now : Z) (s : Store)
  : option Handle * Store :=
  match JsMap.get userId s with
  | None => (None, s)
  | Some cached =>
      if Z.ltb (sessionTimeout cfg) (now - lastAccessed cached) then
        (None, JsMap.delete userId s)
      else (Some (session cached), JsMap.set userId (touch cached now) s)
  end.

(** [SessionCache.evictOldest()]: [oldestTime] starts at [Date.now()] and
    only a strictly older [lastAccessed] is selected; [if (oldestId)] skips
    both [null] and the empty string. *)
Definition evictOldest (now : Z) (s : Store) : Store :=
  let '(oldestId, _) :=
    fold_left (fun (acc : option string * Z) (p : string * CachedSession) =>
                 let '(oid, otime) := acc in
                 if Z.ltb (lastAccessed (snd p)) otime
                 then (Some (fst p), lastAccessed (snd p)) else (oid, otime))
              s (None, now) in
  match oldestId with
  | Some id => if String.eqb id "" then s else JsMap.delete id s
  | None => s
  end.

(** [SessionCache.set(userId, session, initialHistory)]; both
    [Date.now()] readings of one call (in [evictOldest] and in [set]) are
    [now]. *)
Definition set (cfg : CacheConfig) (userId : string) (sess : Handle)
    (initialHistory : list Content) (now : Z) (s : Store) : Store :=
  let s1 := if Z.leb (maxSessions cfg) (JsMap.size s) then evictOldest now s else s in
  JsMap.set userId (mkCS sess now now (List.length initialHistory) initialHistory) s1.

End Store.

End Sessions.

(** ** [src/unnamed/part_013] ([src/lib/tokens]) and [ChatService.trimHistory] *)
Module Tokens.
Local Open Scope string_scope.

(** A message part: an object with a [text] field, or any other part
    (inline data, function call, ...). *)
Inductive Part :=
| TextPart (text : string)
| OtherPart.

(** [{ role: string; parts: unknown[] }] *)
Record Turn := mkTurn { role : string; parts : list Part }.

Definition CHARS_PER_TOKEN : Z := 4.
Definition DEFAULT_MAX_TOKENS : Z := 8000.

(** [estimateTokens(text)]: [Math.ceil(text.length / CHARS_PER_TOKEN)], the
    ceiling written as a division of naturals; a text is taken as a sequence
    of UTF-16 code units, one per character of the Rocq string. *)
Definition estimateTokens (text : string) : Z :=
  if String.eqb text "" then 0
  else (Z.of_nat (String.length text) + CHARS_PER_TOKEN - 1) / CHARS_PER_TOKEN.

(** [extractText(parts)]: the [text] of each part ([""] for the others),
    joined with single spaces. *)
Definition extractText (ps : list Part) : string :=
  String.concat " " (map (fun p => match p with TextPart t => t | OtherPart => "" end) ps).

(** Estimated cost of one turn inside [trimHistoryByTokens]. *)
Definition turnTokens (msg : Turn) : Z := estimateTokens (extractText (parts msg)) + 10.

(** The [for (let i = history.length - 1; i >= 0; i--)] loop, over the turns
    from the most recent to the oldest. *)
Fixpoint trimLoop (maxTokens : Z) (pending : list Turn) (totalTokens : Z)
    (result : list Turn) : list Turn :=
  match pending with
  | [] => result
  | msg :: older =>
      let tokens := turnTokens msg in
      if Z.ltb maxTokens (totalTokens + tokens) then result
      else trimLoop maxTokens older (totalTokens + tokens) (msg :: result)
  end.

(** [trimHistoryByTokens(history, maxTokens)] (turns are never null). *)
Definition trimHistoryByTokens (history : list Turn) (maxTokens : Z) : list Turn :=
  match history with
  | [] => []
  | _ => trimLoop maxTokens (rev history) 0 []
  end.

(** [Array.prototype.slice(start)] *)
Definition js_slice_from {A} (start : Z) (l : list A) : list A :=
  let len := Z.of_nat (List.length l) in
  let s := if Z.ltb start 0 then Z.max (len + start) 0 else Z.min start len in
  skipn (Z.to_nat s) l.

(** [ChatService.trimHistory] with its constants [MAX_HISTORY_MESSAGES] and
    [8000] as parameters: [history.slice(-maxMessages)] then
    [trimHistoryByTokens]. *)
Definition trim (history : list Turn) (maxMessages : nat) (maxTokens : Z) : list Turn :=
  trimHistoryByTokens (js_slice_from (- Z.of_nat maxMessages) history) maxTokens.

Definition MAX_HISTORY_MESSAGES : nat := 30.

Definition trimHistory (history : list Turn) : list Turn :=
  trim history MAX_HISTORY_MESSAGES 8000.

End Tokens.

(** ** The rest of [src/lib/cache/lru-cache.ts] *)
Module LRUMore.
Import LRU.

Section More.
Context {V : Type}.

(** [entries()]: yields [[key, value]] for every entry with
    [!this.ttl || now - entry.timestamp <= this.ttl], in map order; the map
    is not modified. *)
Definition entries (o : Options) (now : Z) (c : Cache (V:=V)) : list (string * V) :=
  map (fun p => (fst p, value (snd p)))
      (filter (fun p => match ttl o with
                        | Some t => Z.eqb t 0 || Z.leb (now - timestamp (snd p)) t
                        | None => true
                        end) c).

End More.
End LRUMore.

(** ** The rest of [src/lib/cache/chat-cache.ts] *)
Module SessionOps.
Import Sessions.

Section Ops.
Context {Handle Content : Type}.

(** [getSessionData(userId)]: as [get], returning the (mutated) record. *)
Definition getSessionData (cfg : CacheConfig) (userId : string) (now : Z)
    (s : Store (Handle:=Handle) (Content:=Content))
  : option (CachedSession (Handle:=Handle) (Content:=Content)) * Store :=
  match JsMap.get userId s with
  | None => (None, s)
  | Some cached =>
      if Z.ltb (sessionTimeout cfg) (now - lastAccessed cached) then
        (None, JsMap.delete userId s)
      else (Some (touch cached now), JsMap.set userId (touch cached now) s)
  end.

(** [incrementMessageCount(userId)] *)
Definition incrementMessageCount (userId : string) (now : Z)
    (s : Store (Handle:=Handle) (Content:=Content)) : Store :=
  match JsMap.get userId s with
  | Some cached =>
      JsMap.set userId
        (mkCS (session cached) now (createdAt cached) (S (messageCount cached))
              (history cached)) s
  | None => s
  end.

(** [updateHistory(userId, history)] *)
Definition updateHistory (userId : string) (h : list Content) (now : Z)
    (s : Store (Handle:=Handle) (Content:=Content)) : Store :=
  match JsMap.get userId s with
  | Some cached =>
      JsMap.set userId
        (mkCS (session cached) now (createdAt cached) (messageCount cached) h) s
  | None => s
  end.

(** [cleanup()]: the ids of the expired sessions are collected first, then
    deleted one by one. *)
Definition cleanup (cfg : CacheConfig) (now : Z)
    (s : Store (Handle:=Handle) (Content:=Content)) : Store :=
  let expiredIds :=
    map fst (filter (fun p => Z.ltb (sessionTimeout cfg) (now - lastAccessed (snd p))) s) in
  fold_left (fun acc id => JsMap.delete id acc) expiredIds s.

End Ops.
End SessionOps.

(** ** Other token trimmers of the code base *)
Module TokensMore.
Import Tokens.
Local Open Scope string_scope.

(** Second [trimHistoryByTokens] of [src/unnamed/part_013] (lines 86-110):
    parts are [{ text: string }] and the text is
    [msg.parts.map(p => p.text).join(" ")]. *)
Record TextTurn := mkTextTurn { trole : string; tparts : list string }.

Definition textTurnTokens (msg : TextTurn) : Z :=
  estimateTokens (String.concat " " (tparts msg)) + 10.

Fixpoint trimLoopText (maxTokens : Z) (pending : list TextTurn) (totalTokens : Z)
    (result : list TextTurn) : list TextTurn :=
  match pending with
  | [] => result
  | msg :: older =>
      let tokens := textTurnTokens msg in
      if Z.ltb maxTokens (totalTokens + tokens) then result
      else trimLoopText maxTokens older (totalTokens + tokens) (msg :: result)
  end.

Definition trimHistoryByTokensText (history : list TextTurn) (maxTokens : Z)
  : list TextTurn :=
  match history with
  | [] => []
  | _ => trimLoopText maxTokens (rev history) 0 []
  end.

(** The ["trimHistory"] request of the token worker
    ([src/lib/workers/token-worker-client.ts]).  A part is an object whose
    [text] is a string, is missing, or is present with the value
    [undefined] or [null]. *)
Inductive WorkerPart :=
| WText (text : string)
| WNoText
| WUndefinedText
| WNullText.

(** A message has optional [parts]. *)
Record WorkerMsg := mkWorkerMsg { wrole : string; wparts : option (list WorkerPart) }.

(** [p.text || ""] *)
Definition workerPartText (p : WorkerPart) : string :=
  match p with
  | WText t => if String.eqb t "" then "" else t
  | WNoText | WUndefinedText | WNullText => ""
  end.

(** [msg.parts?.map(p => p.text || "").join(" ") || ""] *)
Definition workerText (msg : WorkerMsg) : string :=
  let j := match wparts msg with
           | Some ps => String.concat " " (map workerPartText ps)
           | None => ""
           end in
  if String.eqb j "" then "" else j.

Fixpoint workerLoop (maxTokens : Z) (pending : list WorkerMsg) (totalTokens : Z)
    (trimmed : list WorkerMsg) : list WorkerMsg :=
  match pending with
  | [] => trimmed
  | msg :: older =>
      let tokens := estimateTokens (workerText msg) + 10 in
      if Z.ltb maxTokens (totalTokens + tokens) then trimmed
      else workerLoop maxTokens older (totalTokens + tokens) (msg :: trimmed)
  end.

(** [const maxTokens = data.maxTokens || 8000; const history = data.history || [];]
    then the loop (an absent or zero [maxTokens] is falsy). *)
Definition workerTrimHistory (maxTokens : option Z) (history : option (list WorkerMsg))
  : list WorkerMsg :=
  let mt := match maxTokens with Some t => if Z.eqb t 0 then 8000 else t | None => 8000 end in
  let h := match history with Some l => l | None => [] end in
  workerLoop mt (rev h) 0 [].

(** [trimHistory] of [src/app/api/chat/route.ts], whose
    [CONFIG.MAX_HISTORY_MESSAGES] is 20. *)
Definition ROUTE_MAX_HISTORY_MESSAGES : nat := 20.

Definition routeTrimHistory (history : list Turn) : list Turn :=
  trim history ROUTE_MAX_HISTORY_MESSAGES 8000.

End TokensMore.

(** ** Rate limiting and session reuse in [ChatService.processRequest]
    ([src/lib/chat/service.ts]) *)
Module Service.
Import RateLimit.

(** Step 2: [rateLimiter.check(userId)]; a rejection throws
    [new RateLimitError(rateCheck.retryAfter || 1)], here [Some] of the
    error's [retryAfter]. *)
Definition rateGate (maxTokens refillRate : Q) (userId : string) (now : Z)
    (buckets : Buckets) : option Z * Buckets :=
  let '(rateCheck, b') := check maxTokens refillRate userId now buckets in
  if allowed rateCheck then (None, b')
  else (Some (match retryAfter rateCheck with
              | Some n => if Z.eqb n 0 then 1%Z else n
              | None => 1%Z
              end), b').

(** Steps 4 and 6: [sessionCache.get(userId)]; without a live session a chat
    is started on [this.trimHistory(history)] and stored with
    [sessionCache.set(userId, chat, history)]. *)
Definition sessionStep {Handle : Type} (cfg : Sessions.CacheConfig)
    (startChat : list Tokens.Turn -> Handle) (userId : string)
    (history : list Tokens.Turn) (now : Z)
    (s : Sessions.Store (Handle:=Handle) (Content:=Tokens.Turn))
  : Handle * Sessions.Store :=
  let '(chat, s1) := Sessions.get cfg userId now s in
  match chat with
  | Some ch => (ch, s1)
  | None =>
      let ch := startChat (Tokens.trimHistory history) in
      (ch, Sessions.set cfg userId ch history now s1)
  end.

End Service.

(* ===================================================================== *)
(** * Properties *)
(* ===================================================================== *)

(** ** Association-list lemmas for [JsMap] *)
Module JsMapFacts.
Import JsMap.

Section Facts.
Context {A : Type}.

Lemma get_set_same (k : string) (v : A) (m : t A) : get k (set k v m) = Some v.
Proof.
  induction m as [|[k' v'] r IH]; simpl.
  - rewrite String.eqb_refl; reflexivity.
  - destruct (String.eqb k' k) eqn:E; simpl.
    + rewrite String.eqb_refl; reflexivity.
    + rewrite E; exact IH.
Qed.

Lemma Forall_snd_get (P : A -> Prop) (k : string) (m : t A) (v : A) :
  Forall (fun p => P (snd p)) m -> get k m = Some v -> P v.
Proof.
  induction m as [|[k' v'] r IH]; simpl; intros HF Hg; [discriminate|].
  inversion HF; subst.
  destruct (String.eqb k' k); [injection Hg as <-; assumption | auto].
Qed.

Lemma Forall_snd_set (P : A -> Prop) (k : string) (v : A) (m : t A) :
  Forall (fun p => P (snd p)) m -> P v -> Forall (fun p => P (snd p)) (set k v m).
Proof.
  induction m as [|[k' v'] r IH]; simpl; intros HF Hv; [constructor; auto|].
  inversion HF; subst.
  destruct (String.eqb k' k); constructor; auto.
Qed.

Lemma Forall_delete (P : string * A -> Prop) (k : string) (m : t A) :
  Forall P m -> Forall P (delete k m).
Proof.
  induction m as [|[k' v'] r IH]; simpl; intros HF; [constructor|].
  inversion HF; subst.
  destruct (String.eqb k' k); [assumption | constructor; auto].
Qed.

Lemma has_cons (k k' : string) (v : A) (r : t A) :
  has k ((k', v) :: r) = if String.eqb k' k then true else has k r.
Proof. unfold has; simpl. destruct (String.eqb k' k); reflexivity. Qed.

Lemma has_false_iff (k : string) (m : t A) : has k m = false <-> ~ In k (keys m).
Proof.
  induction m as [|[k' v] r IH]; simpl; [unfold has; simpl; tauto|].
  rewrite has_cons. destruct (String.eqb_spec k' k) as [->|Hne].
  - split; [discriminate|]. intros H; exfalso; apply H; left; reflexivity.
  - rewrite IH. split; [intros H [E|I]; [congruence|tauto] | tauto].
Qed.

Lemma has_get (k : string) (m : t A) (v : A) : get k m = Some v -> has k m = true.
Proof. unfold has. intros ->. reflexivity. Qed.

Lemma set_absent (k : string) (v : A) (m : t A) :
  has k m = false -> set k v m = m ++ [(k, v)].
Proof.
  induction m as [|[k' v'] r IH]; simpl; [reflexivity|].
  rewrite has_cons. destruct (String.eqb k' k); [discriminate|].
  intros H; rewrite IH; auto.
Qed.

Lemma delete_absent_nodup (k : string) (m : t A) :
  NoDup (keys m) -> has k (delete k m) = false.
Proof.
  induction m as [|[k' v'] r IH]; simpl; intros Hnd; [reflexivity|].
  inversion Hnd as [|? ? Hnin Hnd']; subst.
  destruct (String.eqb_spec k' k) as [->|Hne].
  - apply has_false_iff; exact Hnin.
  - rewrite has_cons. destruct (String.eqb_spec k' k); [congruence|]. auto.
Qed.

Lemma length_delete_present (k : string) (m : t A) :
  has k m = true -> S (List.length (delete k m)) = List.length m.
Proof.
  induction m as [|[k' v'] r IH]; simpl; [discriminate|].
  rewrite has_cons. destruct (String.eqb k' k); [reflexivity|].
  intros H; simpl; rewrite IH; auto.
Qed.

Lemma in_keys_set (x k : string) (v : A) (m : t A) :
  In x (keys (set k v m)) -> x = k \/ In x (keys m).
Proof.
  induction m as [|[k' v'] r IH]; simpl.
  - intros [<-|[]]; auto.
  - destruct (String.eqb_spec k' k) as [->|Hne]; simpl; [tauto|].
    intros [<-|H]; [auto|]. destruct (IH H); auto.
Qed.

Lemma set_nodup (k : string) (v : A) (m : t A) :
  NoDup (keys m) -> NoDup (keys (set k v m)).
Proof.
  induction m as [|[k' v'] r IH]; simpl; intros Hnd.
  - constructor; [intros []|constructor].
  - inversion Hnd as [|? ? Hnin Hnd']; subst.
    destruct (String.eqb_spec k' k) as [->|Hne]; simpl; constructor; auto.
    intros Hin. destruct (in_keys_set _ _ _ _ Hin); [congruence|contradiction].
Qed.

Lemma get_delete_other (k k' : string) (m : t A) :
  k <> k' -> get k' (delete k m) = get k' m.
Proof.
  intros Hne. induction m as [|[k0 v0] r IH]; simpl; [reflexivity|].
  destruct (String.eqb_spec k0 k) as [->|Hne0]; simpl.
  - destruct (String.eqb_spec k k'); [congruence | reflexivity].
  - destruct (String.eqb k0 k'); [reflexivity | exact IH].
Qed.

Lemma nodup_in_get (k : string) (v : A) (m : t A) :
  NoDup (keys m) -> In (k, v) m -> get k m = Some v.
Proof.
  induction m as [|[k0 v0] r IH]; simpl; intros Hnd Hin; [contradiction|].
  inversion Hnd as [|? ? Hnin Hnd']; subst.
  destruct Hin as [Heq|Hin].
  - injection Heq as -> ->. rewrite String.eqb_refl. reflexivity.
  - destruct (String.eqb_spec k0 k) as [->|Hne]; [|auto].
    exfalso. apply Hnin. apply (in_map fst) in Hin. exact Hin.
Qed.

Lemma Forall_filter_sub (P : string * A -> Prop) (f : string * A -> bool) (m : t A) :
  Forall P m -> Forall P (filter f m).
Proof.
  induction 1 as [|x r Hx Hr IH]; simpl; [constructor|].
  destruct (f x); [constructor|]; assumption.
Qed.

End Facts.
End JsMapFacts.

(** ** Sublists (order-preserving) *)
Module Sublist.

Inductive sublist {A : Type} : list A -> list A -> Prop :=
| sl_nil : sublist [] []
| sl_skip x l l' : sublist l l' -> sublist l (x :: l')
| sl_keep x l l' : sublist l l' -> sublist (x :: l) (x :: l').

Section Facts.
Context {A : Type}.

Lemma sublist_nil_l (l : list A) : sublist [] l.
Proof. induction l; constructor; auto. Qed.

Lemma sublist_refl (l : list A) : sublist l l.
Proof. induction l; [constructor | apply sl_keep; assumption]. Qed.

Lemma sublist_trans (l1 l2 l3 : list A) :
  sublist l1 l2 -> sublist l2 l3 -> sublist l1 l3.
Proof.
  intros H12 H23. revert l1 H12.
  induction H23 as [| x l l' H IH | x l l' H IH]; intros l1 H12.
  - exact H12.
  - apply sl_skip. auto.
  - inversion H12; subst; [apply sl_skip | apply sl_keep]; auto.
Qed.

Lemma sublist_length (l l' : list A) : sublist l l' -> (List.length l <= List.length l')%nat.
Proof. induction 1; simpl; lia. Qed.

Lemma sublist_In (l l' : list A) (x : A) : sublist l l' -> In x l -> In x l'.
Proof. induction 1; simpl; tauto. Qed.

Lemma sublist_Forall (P : A -> Prop) (l l' : list A) :
  sublist l l' -> Forall P l' -> Forall P l.
Proof. induction 1; intros HF; inversion HF; subst; auto. Qed.

Lemma sublist_map {B} (f : A -> B) (l l' : list A) :
  sublist l l' -> sublist (map f l) (map f l').
Proof. induction 1; simpl; [constructor | apply sl_skip | apply sl_keep]; auto. Qed.

Lemma sublist_NoDup (l l' : list A) : sublist l l' -> NoDup l' -> NoDup l.
Proof.
  induction 1 as [| x l l' H IH | x l l' H IH]; intros Hnd; inversion Hnd; subst; auto.
  constructor; auto. intros Hin. apply H2. exact (sublist_In _ _ _ H Hin).
Qed.

Lemma sublist_StronglySorted (R : A -> A -> Prop) (l l' : list A) :
  sublist l l' -> StronglySorted R l' -> StronglySorted R l.
Proof.
  induction 1 as [| x l l' H IH | x l l' H IH]; intros Hs; [exact Hs| |];
    apply StronglySorted_inv in Hs as [Hs Hf]; auto.
  constructor; auto. exact (sublist_Forall _ _ _ H Hf).
Qed.

Lemma StronglySorted_snoc (R : A -> A -> Prop) (l : list A) (x : A) :
  StronglySorted R l -> Forall (fun y => R y x) l -> StronglySorted R (l ++ [x]).
Proof.
  induction l as [|y l IH]; simpl; intros Hs Hf.
  - repeat constructor.
  - apply StronglySorted_inv in Hs as [Hs Hy]. inversion Hf; subst.
    constructor; auto. apply Forall_app; split; auto.
Qed.

Lemma NoDup_snoc (l : list A) (x : A) : NoDup l -> ~ In x l -> NoDup (l ++ [x]).
Proof.
  intros Hnd Hx. apply NoDup_app; [exact Hnd | repeat constructor; intros []|].
  intros a Ha [<-|[]]. contradiction.
Qed.

End Facts.
End Sublist.

Module JsMapSublist.
Import JsMap Sublist.

Lemma delete_sublist {A} (k : string) (m : t A) : sublist (delete k m) m.
Proof.
  induction m as [|[k' v'] r IH]; simpl; [constructor|].
  destruct (String.eqb k' k); [apply sl_skip, sublist_refl | apply sl_keep, IH].
Qed.

Lemma filter_sublist {A} (f : A -> bool) (l : list A) : sublist (filter f l) l.
Proof.
  induction l as [|x l IH]; simpl; [constructor|].
  destruct (f x); [apply sl_keep | apply sl_skip]; auto.
Qed.

End JsMapSublist.

(** ** Rate limiter *)
Module RateLimitFacts.
Import RateLimit JsMapFacts.
Open Scope Q_scope.

Section Facts.
Variable maxTokens refillRate : Q.

(** What every stored bucket satisfies: at most [maxTokens] tokens, and a
    [lastRequest] that is a positive timestamp. *)
Definition bucket_ok (e : RateLimitEntry) : Prop :=
  tokens e <= maxTokens /\ exists r, lastRequest e = Some r /\ (0 < r)%Z.

Lemma refill_le_max (e : RateLimitEntry) (now : Z) :
  tokens (refill maxTokens refillRate e now) <= maxTokens.
Proof. simpl. apply Q.le_min_l. Qed.

Lemma reachable_buckets_ok (s : Buckets) :
  reachable maxTokens refillRate s -> Forall (fun p => bucket_ok (snd p)) s.
Proof.
  induction 1 as [| k now s Hnow Hs IH | k s Hs IH | now s Hnow Hs IH].
  - constructor.
  - unfold check. destruct (JsMap.get k s) as [e0|] eqn:Hg.
    + assert (He0 : bucket_ok e0) by exact (Forall_snd_get _ _ _ _ IH Hg).
      destruct He0 as [Ht [r [Hr Hpos]]].
      assert (Hre : bucket_ok (refill maxTokens refillRate e0 now)).
      { split; [apply refill_le_max | exists r; simpl; auto]. }
      destruct (_ && _); simpl; [apply Forall_snd_set; auto|].
      destruct (Qle_bool 1 _); simpl; apply Forall_snd_set; auto.
      split; [cbn [tokens]; pose proof (refill_le_max e0 now) as Hm; simpl in Hm; lra | exists now; simpl; auto].
    + simpl. apply Forall_snd_set; auto.
      split; [simpl; lra | exists now; auto].
  - apply Forall_delete; exact IH.
  - apply Forall_filter_sub; exact IH.
Qed.

Lemma refill_elapsed_nonneg (e : RateLimitEntry) (now : Z) :
  0 <= refillRate -> (lastRefill e <= now)%Z ->
  0 <= inject_Z (now - lastRefill e) / 1000 * refillRate.
Proof.
  intros Hr Hle. apply Qmult_le_0_compat; [|exact Hr].
  assert (0 <= inject_Z (now - lastRefill e)).
  { change 0 with (inject_Z 0). rewrite <- Zle_Qle. lia. }
  apply Qle_shift_div_l; [reflexivity|]. lra.
Qed.

Lemma refill_elapsed_nonpos (e : RateLimitEntry) (now : Z) :
  0 <= refillRate -> (now < lastRefill e)%Z ->
  inject_Z (now - lastRefill e) / 1000 * refillRate <= 0.
Proof.
  intros Hr Hlt.
  assert (inject_Z (now - lastRefill e) < 0).
  { change 0 with (inject_Z 0). rewrite <- Zlt_Qlt. lia. }
  assert (inject_Z (now - lastRefill e) / 1000 < 0).
  { apply Qlt_shift_div_r; [reflexivity|]. lra. }
  setoid_replace (inject_Z (now - lastRefill e) / 1000 * refillRate)
    with (- ((- (inject_Z (now - lastRefill e) / 1000)) * refillRate)) by ring.
  assert (0 <= - (inject_Z (now - lastRefill e) / 1000) * refillRate).
  { apply Qmult_le_0_compat; lra. }
  lra.
Qed.

Lemma refill_monotone_clock (e : RateLimitEntry) (now : Z) :
  0 <= refillRate -> tokens e <= maxTokens -> (lastRefill e <= now)%Z ->
  tokens e <= tokens (refill maxTokens refillRate e now).
Proof.
  intros Hr Ht Hle. simpl. apply Q.min_glb; [exact Ht|].
  pose proof (refill_elapsed_nonneg e now Hr Hle). lra.
Qed.

(** C1 (amended).  First check for a key: always allowed.  Later checks
    less than 500ms after the last allowed request: rejected with
    [retryAfter = 1] and [lastRequest] kept, whatever the clock does; the
    stored token count is not decreased provided [refillRate >= 0] and the
    clock has not gone back behind [lastRefill]. *)
Theorem burst_suppression (s : Buckets) (k : string) (now : Z) :
  reachable maxTokens refillRate s ->
  (JsMap.get k s = None ->
     allowed (fst (check maxTokens refillRate k now s)) = true) /\
  (forall e r, JsMap.get k s = Some e -> lastRequest e = Some r -> (now - r < 500)%Z ->
     fst (check maxTokens refillRate k now s)
       = mkResult false (inject_Z (Qfloor (tokens (refill maxTokens refillRate e now))))
                  (Some 1%Z) /\
     exists e', JsMap.get k (snd (check maxTokens refillRate k now s)) = Some e' /\
                lastRequest e' = Some r /\
                (0 <= refillRate -> (lastRefill e <= now)%Z -> tokens e <= tokens e')).
Proof.
  intros Hreach. pose proof (reachable_buckets_ok s Hreach) as Hok.
  split.
  - intros Hg. unfold check. rewrite Hg. reflexivity.
  - intros e r Hg Hr Hlt.
    destruct (Forall_snd_get _ _ _ _ Hok Hg) as [Ht [r' [Hr' Hpos]]].
    rewrite Hr in Hr'. injection Hr' as <-.
    unfold check. rewrite Hg. cbn [refill lastRequest truthy_num].
    rewrite Hr.
    assert (Hnz : (r =? 0)%Z = false) by (apply Z.eqb_neq; lia).
    assert (Hb : (now - r <? MIN_REQUEST_INTERVAL)%Z = true)
      by (apply Z.ltb_lt; unfold MIN_REQUEST_INTERVAL; lia).
    cbn [truthy_num]. rewrite Hnz, Hb. simpl andb. cbv iota. split; [reflexivity|].
    eexists. split; [apply get_set_same|].
    split; [simpl; exact Hr|].
    intros Hrate Hle. apply (refill_monotone_clock e now Hrate Ht Hle).
Qed.

(** C6 (amended).  The refill step does not clamp the elapsed time.  With
    [refillRate >= 0] it never lowers the stored count when the clock is at
    or after [lastRefill], and never raises it when the clock is behind
    [lastRefill]; that a regression does lower it is shown on the default
    configuration below ([refill_clock_regression]). *)
Theorem refill_no_clamp (s : Buckets) (k : string) (e : RateLimitEntry) (now : Z) :
  reachable maxTokens refillRate s -> JsMap.get k s = Some e ->
  (0 <= refillRate -> (lastRefill e <= now)%Z ->
     tokens e <= tokens (refill maxTokens refillRate e now)) /\
  (0 <= refillRate -> (now < lastRefill e)%Z ->
     tokens (refill maxTokens refillRate e now) <= tokens e).
Proof.
  intros Hreach Hg.
  destruct (Forall_snd_get _ _ _ _ (reachable_buckets_ok s Hreach) Hg) as [Ht _].
  split.
  - intros Hr Hle. exact (refill_monotone_clock e now Hr Ht Hle).
  - intros Hr Hlt. pose proof (refill_elapsed_nonpos e now Hr Hlt) as Hneg.
    cbn [refill tokens].
    apply Qle_trans with (tokens e + inject_Z (now - lastRefill e) / 1000 * refillRate).
    + apply Q.le_min_r.
    + lra.
Qed.

End Facts.
End RateLimitFacts.

(** Default configuration of [src/lib/rate-limit.ts]: 10 tokens, 0.167/s. *)
Module RateLimitExamples.
Import RateLimit RateLimitFacts.
Open Scope Q_scope.

Definition defMax : Q := 10.
Definition defRate : Q := 167 # 1000.

Definition ex_s1 := snd (check defMax defRate "u" 1000 []).
Definition ex_s2 := snd (check defMax defRate "u" 1400 ex_s1).
Definition ex_s3 := snd (check defMax defRate "u" 1200 ex_s2).

(** C1 fails when the clock goes back: the third check, 200ms after the
    allowed request at 1000 but 200ms before the last refill at 1400, is
    rejected and lowers the stored token count. *)
Lemma burst_suppression_clock_regression :
  exists e2 e3,
    JsMap.get "u" ex_s2 = Some e2 /\ lastRequest e2 = Some 1000%Z /\
    allowed (fst (check defMax defRate "u" 1200 ex_s2)) = false /\
    JsMap.get "u" ex_s3 = Some e3 /\ tokens e3 < tokens e2.
Proof. do 2 eexists. repeat split; vm_compute; reflexivity. Qed.

Lemma burst_suppression_witness :
  reachable defMax defRate ex_s1 /\
  fst (check defMax defRate "u" 1200 ex_s1)
    = mkResult false (inject_Z (Qfloor (tokens (refill defMax defRate
        (mkEntry 9 1000 (Some 1000%Z)) 1200)))) (Some 1%Z).
Proof.
  assert (Hr : reachable defMax defRate ex_s1)
    by (apply reach_check; [reflexivity | apply reach_init]).
  split; [exact Hr|].
  refine (proj1 (proj2 (burst_suppression defMax defRate ex_s1 "u" 1200 Hr)
            (mkEntry 9 1000 (Some 1000%Z)) 1000%Z _ eq_refl _)).
  - vm_compute. reflexivity.
  - vm_compute. reflexivity.
Defined.

(** C6 fails: a clock 500ms behind [lastRefill] makes the refill step
    remove tokens from a fresh bucket. *)
Lemma refill_clock_regression :
  exists e, JsMap.get "u" ex_s1 = Some e /\ (500 < lastRefill e)%Z /\
            tokens (refill defMax defRate e 500) < tokens e.
Proof. eexists. repeat split; vm_compute; reflexivity. Qed.

Lemma refill_no_clamp_witness :
  0 <= defRate /\
  tokens (refill defMax defRate (mkEntry 9 1000 (Some 1000%Z)) 500) <= 9.
Proof.
  assert (Hr : 0 <= defRate) by (vm_compute; discriminate).
  split; [exact Hr|].
  refine (proj2 (refill_no_clamp defMax defRate ex_s1 "u" (mkEntry 9 1000 (Some 1000%Z)) 500
                   _ _) Hr _).
  - apply reach_check; [reflexivity | apply reach_init].
  - vm_compute. reflexivity.
  - vm_compute. reflexivity.
Defined.

End RateLimitExamples.

(** ** LRU cache *)
Module LRUFacts.
Import LRU JsMapFacts Sublist JsMapSublist.

Section Facts.
Context {V : Type}.
Implicit Types (o : Options) (c : Cache (V:=V)) (e : CacheEntry (V:=V)).

Lemma prune_loop_sublist o t now (visit : Cache (V:=V)) c n ev :
  sublist (snd (fst (prune_loop o t now visit c n ev))) c.
Proof.
  revert c n ev. induction visit as [|[k e] rest IH]; intros c n ev; simpl.
  - apply sublist_refl.
  - destruct (t <? now - timestamp e)%Z; simpl.
    + eapply sublist_trans; [apply IH | apply delete_sublist].
    + apply IH.
Qed.

Lemma prune_sublist o now c : sublist (snd (fst (prune o now c))) c.
Proof.
  unfold prune. destruct (ttl o) as [t|]; [destruct (t =? 0)%Z|]; simpl;
    [apply sublist_refl | apply prune_loop_sublist | apply sublist_refl].
Qed.

(** Every operation either only removes entries, or removes some and then
    appends one fresh entry stamped [now] under a key no longer present. *)
Lemma step_cases o (op : Op V) now c :
  NoDup (JsMap.keys c) ->
  sublist (fst (step o op now c)) c \/
  exists k v c1,
    fst (step o op now c) = c1 ++ [(k, mkCE v now)] /\ JsMap.has k c1 = false /\
    sublist c1 c /\
    (S (List.length c1) = List.length c \/
     (c1 = c /\ ((JsMap.size c < maxSize o)%Z \/ c = []))).
Proof.
  intros Hnd.
  assert (Hget : forall k,
    sublist (fst (let '(_, c', ev) := get o k now c in (c', ev))) c \/
    exists k' v c1,
      fst (let '(_, c', ev) := get o k now c in (c', ev)) = c1 ++ [(k', mkCE v now)] /\
      JsMap.has k' c1 = false /\ sublist c1 c /\
      (S (List.length c1) = List.length c \/
       (c1 = c /\ ((JsMap.size c < maxSize o)%Z \/ c = [])))).
  { intros k. unfold get. destruct (JsMap.get k c) as [e|] eqn:Hg;
      [|left; apply sublist_refl].
    destruct (expired o now e); simpl; [left; apply delete_sublist|].
    right. exists k, (value e), (JsMap.delete k c).
    split; [apply set_absent, delete_absent_nodup, Hnd|].
    split; [apply delete_absent_nodup, Hnd|].
    split; [apply delete_sublist|].
    left. apply length_delete_present. exact (has_get _ _ _ Hg). }
  destruct op as [k|k v|k| | |k]; simpl.
  - exact (Hget k).
  - unfold set. destruct (JsMap.has k c) eqn:Hh.
    + right. exists k, v, (JsMap.delete k c).
      split; [apply set_absent, delete_absent_nodup, Hnd|].
      split; [apply delete_absent_nodup, Hnd|].
      split; [apply delete_sublist|].
      left. apply length_delete_present, Hh.
    + destruct (Z.leb (maxSize o) (JsMap.size c)) eqn:Hl.
      * destruct c as [|[fk fe] rest].
        -- right. exists k, v, []. simpl. repeat split; auto. apply sublist_refl.
        -- simpl. rewrite String.eqb_refl. simpl.
           rewrite has_cons in Hh. destruct (String.eqb fk k); [discriminate|].
           right. exists k, v, rest.
           split; [apply set_absent, Hh|]. split; [exact Hh|].
           split; [apply sl_skip, sublist_refl|]. left; reflexivity.
      * right. exists k, v, c. simpl.
        split; [apply set_absent, Hh|]. split; [exact Hh|].
        split; [apply sublist_refl|]. right. split; [reflexivity|].
        left. apply Z.leb_gt, Hl.
  - left. apply delete_sublist.
  - left. apply sublist_nil_l.
  - left. destruct (prune o now c) as [[n c'] ev] eqn:Hp.
    pose proof (prune_sublist o now c) as H. rewrite Hp in H. exact H.
  - unfold has. destruct (Hget k) as [H|H]; [left|right];
      destruct (get o k now c) as [[r c'] ev]; exact H.
Qed.

Lemma keys_snoc (c1 : Cache (V:=V)) k x :
  JsMap.keys (c1 ++ [(k, x)]) = JsMap.keys c1 ++ [k].
Proof. unfold JsMap.keys. rewrite map_app. reflexivity. Qed.

Lemma step_nodup o (op : Op V) now c :
  NoDup (JsMap.keys c) -> NoDup (JsMap.keys (fst (step o op now c))).
Proof.
  intros Hnd. destruct (step_cases o op now c Hnd) as [H|[k [v [c1 [Heq [Hh [Hs _]]]]]]].
  - exact (sublist_NoDup _ _ (sublist_map fst _ _ H) Hnd).
  - rewrite Heq, keys_snoc. apply NoDup_snoc.
    + exact (sublist_NoDup _ _ (sublist_map fst _ _ Hs) Hnd).
    + apply has_false_iff, Hh.
Qed.

Lemma run_nodup o (tr : list (Op V * Z)) c :
  NoDup (JsMap.keys c) -> NoDup (JsMap.keys (run o tr c)).
Proof.
  revert c. induction tr as [|[op now] tr IH]; intros c Hnd; simpl; auto.
  apply IH, step_nodup, Hnd.
Qed.

Lemma step_size o (op : Op V) now c :
  (1 <= maxSize o)%Z -> NoDup (JsMap.keys c) -> (JsMap.size c <= maxSize o)%Z ->
  (JsMap.size (fst (step o op now c)) <= maxSize o)%Z.
Proof.
  intros Hmax Hnd Hsz. unfold JsMap.size in *.
  destruct (step_cases o op now c Hnd) as [H|[k [v [c1 [Heq [Hh [Hs Hl]]]]]]].
  - pose proof (sublist_length _ _ H). lia.
  - rewrite Heq, length_app. simpl.
    destruct Hl as [Hl|[-> [Hl| ->]]]; unfold JsMap.size in *; simpl in *; lia.
Qed.

Lemma run_size o (tr : list (Op V * Z)) c :
  (1 <= maxSize o)%Z -> NoDup (JsMap.keys c) -> (JsMap.size c <= maxSize o)%Z ->
  (JsMap.size (run o tr c) <= maxSize o)%Z.
Proof.
  revert c. induction tr as [|[op now] tr IH]; intros c Hmax Hnd Hsz; simpl; auto.
  apply IH; [exact Hmax | apply step_nodup, Hnd | apply step_size; auto].
Qed.

(** Timestamps along the map's iteration order. *)
Definition ts_le (p q : string * CacheEntry (V:=V)) : Prop :=
  (timestamp (snd p) <= timestamp (snd q))%Z.

(** The times of a trace never go back, starting from [T]. *)
Fixpoint clock_from (T : Z) (tr : list (Op V * Z)) : Prop :=
  match tr with
  | [] => True
  | (_, now) :: rest => (T <= now)%Z /\ clock_from now rest
  end.

Lemma step_sorted o (op : Op V) (T now : Z) c :
  NoDup (JsMap.keys c) -> (T <= now)%Z ->
  StronglySorted ts_le c -> Forall (fun p => timestamp (snd p) <= T)%Z c ->
  StronglySorted ts_le (fst (step o op now c)) /\
  Forall (fun p => timestamp (snd p) <= now)%Z (fst (step o op now c)).
Proof.
  intros Hnd HT Hs Hb.
  assert (Hb' : Forall (fun p => timestamp (snd p) <= now)%Z c).
  { eapply Forall_impl; [|exact Hb]. intros p Hp; simpl in *; lia. }
  destruct (step_cases o op now c Hnd) as [H|[k [v [c1 [Heq [Hh [Hsub _]]]]]]].
  - split; [exact (sublist_StronglySorted _ _ _ H Hs) | exact (sublist_Forall _ _ _ H Hb')].
  - rewrite Heq. pose proof (sublist_Forall _ _ _ Hsub Hb') as Hc1. split.
    + apply StronglySorted_snoc; [exact (sublist_StronglySorted _ _ _ Hsub Hs)|].
      eapply Forall_impl; [|exact Hc1]. intros p Hp; unfold ts_le; simpl in *; lia.
    + apply Forall_app; split; [exact Hc1 | repeat constructor; simpl; lia].
Qed.

Lemma run_sorted o (tr : list (Op V * Z)) (T : Z) c :
  NoDup (JsMap.keys c) -> clock_from T tr ->
  StronglySorted ts_le c -> Forall (fun p => timestamp (snd p) <= T)%Z c ->
  StronglySorted ts_le (run o tr c).
Proof.
  revert T c. induction tr as [|[op now] tr IH]; intros T c Hnd Hclk Hs Hb; simpl; auto.
  destruct Hclk as [HT Hclk].
  destruct (step_sorted o op T now c Hnd HT Hs Hb) as [Hs' Hb'].
  exact (IH now _ (step_nodup o op now c Hnd) Hclk Hs' Hb').
Qed.

End Facts.
End LRUFacts.

Module LRUClaims.
Import LRU LRUFacts JsMapFacts Sublist JsMapSublist.

Section Claims.
Context {V : Type}.

Lemma prune_loop_events (o : Options) (t now : Z) (visit cur : Cache (V:=V)) n
    (ev : Events) :
  NoDup (JsMap.keys visit) ->
  (forall k e, In (k, e) visit -> JsMap.get k cur = Some e) ->
  snd (prune_loop o t now visit cur n ev)
    = ev ++ flat_map (fun p => if Z.ltb t (now - timestamp (snd p))
                               then onEvict o (fst p) (value (snd p)) else []) visit.
Proof.
  revert cur n ev.
  induction visit as [|[k e] rest IH]; intros cur n ev Hnd Hcur; simpl.
  - rewrite app_nil_r. reflexivity.
  - inversion Hnd as [|? ? Hnin Hnd']; subst.
    assert (Hrest : forall k' e', In (k', e') rest ->
                      JsMap.get k' (JsMap.delete k cur) = Some e').
    { intros k' e' Hin. rewrite get_delete_other.
      - apply Hcur. right. exact Hin.
      - intros ->. apply Hnin. apply (in_map fst) in Hin. exact Hin. }
    destruct (t <? now - timestamp e)%Z; simpl.
    + rewrite (Hcur k e (or_introl eq_refl)).
      rewrite (IH _ _ _ Hnd' Hrest). rewrite app_assoc. reflexivity.
    + rewrite (IH _ _ _ Hnd' (fun k' e' Hin => Hcur k' e' (or_intror Hin))).
      reflexivity.
Qed.

Lemma flat_map_all_nil {A B} (f : A -> list B) (l : list A) :
  (forall x, f x = []) -> flat_map f l = [].
Proof. intros H. induction l as [|x l IH]; simpl; [reflexivity|]. rewrite H, IH. reflexivity. Qed.

(** C2.  With [maxSize >= 1], after any trace of operations the map holds at
    most [maxSize] entries; [set] of a present key keeps the count; [set] of
    a new key at capacity removes exactly the first entry of the map (and
    reports it to [onEvict]) and appends the new one, and that first entry
    has the oldest access/insert timestamp whenever the clock never went
    back during the trace. *)
Theorem capacity_invariant (o : Options) (tr : list (Op V * Z)) :
  (1 <= maxSize o)%Z ->
  let c := run o tr [] in
  (JsMap.size c <= maxSize o)%Z /\
  (forall k v now, JsMap.has k c = true ->
     List.length (fst (set o k v now c)) = List.length c) /\
  (forall k v now, JsMap.has k c = false -> JsMap.size c = maxSize o ->
     exists fk fe rest, c = (fk, fe) :: rest /\
       fst (set o k v now c) = rest ++ [(k, mkCE v now)] /\
       snd (set o k v now c) = onEvict o fk (value fe) /\
       (forall T, clock_from T tr ->
          forall p, In p rest -> (timestamp fe <= timestamp (snd p))%Z)).
Proof.
  intros Hmax c.
  assert (Hc0 : c = run o tr []) by reflexivity. clearbody c.
  assert (Hnd : NoDup (JsMap.keys c)) by (rewrite Hc0; apply run_nodup; constructor).
  split; [rewrite Hc0; apply run_size; [exact Hmax | constructor | unfold JsMap.size; simpl; lia]|].
  split.
  - intros k v now Hh. unfold set. rewrite Hh. cbn [fst].
    rewrite set_absent by (apply delete_absent_nodup, Hnd).
    rewrite length_app. simpl. pose proof (length_delete_present k c Hh). lia.
  - intros k v now Hh Hsz.
    destruct c as [|[fk fe] rest]; [unfold JsMap.size in Hsz; simpl in Hsz; lia|].
    exists fk, fe, rest. split; [reflexivity|].
    assert (Hhr : JsMap.has k rest = false).
    { rewrite has_cons in Hh. destruct (String.eqb fk k); [discriminate | exact Hh]. }
    assert (Hl : Z.leb (maxSize o) (JsMap.size ((fk, fe) :: rest)) = true)
      by (apply Z.leb_le; lia).
    unfold set. rewrite Hh, Hl. cbn [JsMap.keys map fst].
    cbn [JsMap.delete JsMap.get]. rewrite String.eqb_refl.
    split; [cbn [fst]; apply set_absent, Hhr|].
    split; [reflexivity|].
    intros T Hclk p Hp.
    pose proof (run_sorted o tr T [] (NoDup_nil _) Hclk (SSorted_nil _) (Forall_nil _)) as Hs.
    rewrite <- Hc0 in Hs. apply StronglySorted_inv in Hs as [_ Hf].
    rewrite Forall_forall in Hf. exact (Hf p Hp).
Qed.

(** C3 (amended).  With [ttl = T] (non-zero), an entry with timestamp [t0]
    is returned by [get] (and refreshed) whenever [now - t0 <= T], boundary
    included; when [now - t0 > T] it is absent, deleted, and reported to
    [onEvict]. *)
Theorem ttl_expiry_boundary (o : Options) (T : Z) (c : Cache (V:=V)) (k : string)
    (e : CacheEntry) (now : Z) :
  ttl o = Some T -> T <> 0%Z -> JsMap.get k c = Some e ->
  ((now - timestamp e <= T)%Z ->
     get o k now c = (Some (value e), JsMap.set k (mkCE (value e) now) (JsMap.delete k c), [])) /\
  ((T < now - timestamp e)%Z ->
     get o k now c = (None, JsMap.delete k c, onEvict o k (value e))).
Proof.
  intros Ht HT Hg. unfold get, expired. rewrite Hg, Ht.
  assert (Hz : (T =? 0)%Z = false) by (apply Z.eqb_neq; exact HT).
  rewrite Hz. simpl negb. cbv iota beta.
  split; intros Hle.
  - replace (T <? now - timestamp e)%Z with false by (symmetry; apply Z.ltb_ge; lia).
    reflexivity.
  - replace (T <? now - timestamp e)%Z with true by (symmetry; apply Z.ltb_lt; lia).
    unfold delete. rewrite Hg. reflexivity.
Qed.

(** C4 (amended).  [onEvict] is called for the entry evicted by [set] at
    capacity, for a TTL-expired entry found by [get] (hence [has]), for every
    expired entry removed by [prune], and also for an explicit [delete] of a
    present key and for every entry on [clear]; [set] of a present key or
    below capacity calls it for nothing. *)
Theorem onEvict_firing (o : Options) (c : Cache (V:=V)) (now : Z) :
  NoDup (JsMap.keys c) ->
  (forall k v fk fe rest, c = (fk, fe) :: rest -> JsMap.has k c = false ->
     (maxSize o <= JsMap.size c)%Z -> snd (set o k v now c) = onEvict o fk (value fe)) /\
  (forall k v, (JsMap.has k c = true \/ (JsMap.size c < maxSize o)%Z) ->
     snd (set o k v now c) = []) /\
  (forall k e, JsMap.get k c = Some e ->
     snd (get o k now c) = if expired o now e then onEvict o k (value e) else []) /\
  (forall k e, JsMap.get k c = Some e -> snd (delete o k c) = onEvict o k (value e)) /\
  snd (clear o c) = (if hasOnEvict o then map (fun p => (fst p, value (snd p))) c else []) /\
  snd (prune o now c)
    = flat_map (fun p => if expired o now (snd p)
                         then onEvict o (fst p) (value (snd p)) else []) c.
Proof.
  intros Hnd. split; [|split; [|split; [|split; [|split]]]].
  - intros k v fk fe rest -> Hh Hl. unfold set. rewrite Hh.
    apply Z.leb_le in Hl. rewrite Hl. cbn [JsMap.keys map fst JsMap.get JsMap.delete].
    rewrite String.eqb_refl. reflexivity.
  - intros k v [Hh|Hl]; unfold set.
    + rewrite Hh. reflexivity.
    + destruct (JsMap.has k c); [reflexivity|].
      apply Z.leb_gt in Hl. rewrite Hl. reflexivity.
  - intros k e Hg. unfold get. rewrite Hg.
    destruct (expired o now e); [|reflexivity]. unfold delete. rewrite Hg. reflexivity.
  - intros k e Hg. unfold delete. rewrite Hg. reflexivity.
  - reflexivity.
  - unfold prune, expired. destruct (ttl o) as [t|].
    + destruct (t =? 0)%Z eqn:Ht; simpl negb; cbv iota beta.
      * symmetry. apply flat_map_all_nil. intros p. reflexivity.
      * rewrite (prune_loop_events o t now c c 0 [] Hnd); [reflexivity|].
        intros k e Hin. apply nodup_in_get; assumption.
    + symmetry. apply flat_map_all_nil. intros p. reflexivity.
Qed.

(** C10.  [has] is [get]: on a present, unexpired key it moves the entry to
    the most-recently-used end with timestamp [now]; on an expired key it
    deletes the entry, reports it to [onEvict], and answers [false]. *)
Theorem has_is_get (o : Options) (tr : list (Op V * Z)) (k : string) (now : Z)
    (e : CacheEntry) :
  let c := run o tr [] in
  JsMap.get k c = Some e ->
  (expired o now e = false ->
     has o k now c = (true, JsMap.delete k c ++ [(k, mkCE (value e) now)], [])) /\
  (expired o now e = true ->
     has o k now c = (false, JsMap.delete k c, onEvict o k (value e))).
Proof.
  intros c Hg.
  assert (Hnd : NoDup (JsMap.keys c)) by (apply run_nodup; constructor).
  clearbody c.
  split; intros Hx; unfold has, get; rewrite Hg, Hx.
  - rewrite set_absent by (apply delete_absent_nodup, Hnd). reflexivity.
  - unfold delete. rewrite Hg. reflexivity.
Qed.

End Claims.
End LRUClaims.

(** A cache of naturals with [maxSize = 2], [ttl = 1000] and an [onEvict]
    callback, holding ["a" -> 7] inserted at time 0. *)
Module LRUExamples.
Import LRU LRUFacts LRUClaims.
Local Open Scope string_scope.

Definition o1 : Options := mkOptions 2 (Some 1000%Z) true.
Definition tr1 : list (Op nat * Z) := [(OSet "a" 7%nat, 0%Z)].
Definition c1 : Cache (V:=nat) := run o1 tr1 [].

Lemma capacity_invariant_witness :
  (1 <= maxSize o1)%Z /\ (JsMap.size (run o1 (tr1 ++ [(OSet "b" 8%nat, 5%Z); (OSet "c" 9%nat, 6%Z)]) []) <= maxSize o1)%Z.
Proof.
  assert (H : (1 <= maxSize o1)%Z) by (vm_compute; discriminate).
  split; [exact H|].
  exact (proj1 (capacity_invariant o1 _ H)).
Defined.

(** C3 fails at the boundary: at [now = t0 + T] the entry is still returned. *)
Lemma ttl_boundary_still_returned :
  fst (fst (get o1 "a" 1000 c1)) = Some 7%nat.
Proof. vm_compute. reflexivity. Qed.

Lemma ttl_expiry_boundary_witness :
  get o1 "a" 1000 c1 = (Some 7%nat, [("a", mkCE 7%nat 1000)], []).
Proof.
  refine (proj1 (ttl_expiry_boundary o1 1000 c1 "a" (mkCE 7%nat 0) 1000 eq_refl _ eq_refl) _).
  - discriminate.
  - vm_compute. discriminate.
Defined.

(** C4 fails: an explicit [delete] and [clear] both call [onEvict]. *)
Lemma onEvict_on_delete_and_clear :
  snd (delete o1 "a" c1) = [("a", 7%nat)] /\ snd (clear o1 c1) = [("a", 7%nat)].
Proof. split; vm_compute; reflexivity. Qed.

Lemma onEvict_firing_witness :
  NoDup (JsMap.keys c1) /\ snd (delete o1 "a" c1) = onEvict o1 "a" 7%nat.
Proof.
  assert (Hnd : NoDup (JsMap.keys c1)) by (vm_compute; repeat constructor; intros []).
  split; [exact Hnd|].
  exact (proj1 (proj2 (proj2 (proj2 (onEvict_firing o1 c1 0 Hnd)))) "a" (mkCE 7%nat 0) eq_refl).
Defined.

Lemma has_is_get_witness :
  has o1 "a" 500 c1 = (true, [("a", mkCE 7%nat 500)], []) /\
  has o1 "a" 2000 c1 = (false, [], [("a", 7%nat)]).
Proof.
  split.
  - exact (proj1 (has_is_get o1 tr1 "a" 500 (mkCE 7%nat 0) eq_refl) eq_refl).
  - exact (proj2 (has_is_get o1 tr1 "a" 2000 (mkCE 7%nat 0) eq_refl) eq_refl).
Defined.

End LRUExamples.

(** ** Session store *)
Module SessionExamples.
Import Sessions.
Local Open Scope string_scope.

Definition cfg1 : CacheConfig := mkConfig (30 * 60 * 1000) 1 (5 * 60 * 1000).

(** ["a"] then ["b"] stored in the same millisecond with [maxSessions = 1]. *)
Definition sameMs : Store (Handle:=nat) (Content:=nat) :=
  set cfg1 "b" 2%nat [] 1000 (set cfg1 "a" 1%nat [] 1000 []).

(** ["b"] stored one millisecond after ["a"]. *)
Definition nextMs : Store (Handle:=nat) (Content:=nat) :=
  set cfg1 "b" 2%nat [] 1001 (set cfg1 "a" 1%nat [] 1000 []).

(** C5: in the same millisecond [evictOldest] finds no [lastAccessed]
    strictly below [Date.now()], so nothing is evicted: ["a"] is still
    returned and the store holds two sessions with [maxSessions = 1]. *)
Theorem session_same_millisecond_no_eviction :
  fst (get cfg1 "a" 1000 sameMs) = Some 1%nat /\
  fst (get cfg1 "b" 1000 sameMs) = Some 2%nat /\
  JsMap.size sameMs = 2%Z.
Proof. repeat split; vm_compute; reflexivity. Qed.

(** One millisecond later the same calls evict ["a"] as intended. *)
Lemma session_next_millisecond_eviction :
  fst (get cfg1 "a" 1001 nextMs) = None /\ fst (get cfg1 "b" 1001 nextMs) = Some 2%nat.
Proof. split; vm_compute; reflexivity. Qed.

End SessionExamples.

(** ** History trimming *)
Module TokensFacts.
Import Tokens.

(** Sum of the estimated costs of some turns. *)
Definition total (l : list Turn) : Z := fold_right (fun m acc => turnTokens m + acc) 0 l.

(** Every running total from [tot] along [ys] stays within [t]. *)
Fixpoint fits (t : Z) (ys : list Turn) (tot : Z) : Prop :=
  match ys with
  | [] => True
  | y :: r => tot + turnTokens y <= t /\ fits t r (tot + turnTokens y)
  end.

Lemma estimateTokens_nonneg (s : string) : 0 <= estimateTokens s.
Proof.
  unfold estimateTokens, CHARS_PER_TOKEN. destruct (String.eqb s ""); [lia|].
  apply Z.div_pos; lia.
Qed.

Lemma turnTokens_pos (m : Turn) : 10 <= turnTokens m.
Proof. unfold turnTokens. pose proof (estimateTokens_nonneg (extractText (parts m))). lia. Qed.

Lemma turnTokens_formula (m : Turn) :
  turnTokens m = (Z.of_nat (String.length (extractText (parts m))) + 3) / 4 + 10.
Proof.
  unfold turnTokens, estimateTokens, CHARS_PER_TOKEN.
  destruct (String.eqb_spec (extractText (parts m)) "") as [->|]; [reflexivity | rewrite <- Z.add_sub_assoc; reflexivity].
Qed.

Lemma total_app (l1 l2 : list Turn) : total (l1 ++ l2) = total l1 + total l2.
Proof. induction l1 as [|x l1 IH]; simpl; [reflexivity|]. rewrite IH. lia. Qed.

Lemma total_rev (l : list Turn) : total (rev l) = total l.
Proof. induction l as [|x l IH]; simpl; [reflexivity|]. rewrite total_app, IH. simpl. lia. Qed.

Lemma fits_of_total (t : Z) (ys : list Turn) (tot : Z) :
  tot + total ys <= t -> fits t ys tot.
Proof.
  revert tot. induction ys as [|y ys IH]; simpl; intros tot H; [exact I|].
  assert (0 <= total ys).
  { clear -ys. induction ys as [|z zs IHz]; simpl; [lia|]. pose proof (turnTokens_pos z). lia. }
  split; [lia | apply IH; lia].
Qed.

Lemma fits_total (t : Z) (ys : list Turn) (tot : Z) :
  fits t ys tot -> ys = [] \/ tot + total ys <= t.
Proof.
  revert tot. induction ys as [|y ys IH]; simpl; intros tot H; [auto|].
  right. destruct H as [H1 H2]. destruct (IH _ H2) as [->|H3]; simpl; lia.
Qed.

Lemma trimLoop_fits (t : Z) (ys : list Turn) (tot : Z) (acc : list Turn) :
  fits t ys tot -> trimLoop t ys tot acc = rev ys ++ acc.
Proof.
  revert tot acc. induction ys as [|y ys IH]; simpl; intros tot acc H; [reflexivity|].
  destruct H as [H1 H2].
  replace (t <? tot + turnTokens y) with false by (symmetry; apply Z.ltb_ge; lia).
  rewrite IH by exact H2. rewrite <- app_assoc. reflexivity.
Qed.

(** The loop keeps the longest run of recent turns whose running total stays
    within budget and stops at the first turn that would exceed it. *)
Lemma trimLoop_shape (t : Z) (ys : list Turn) (tot : Z) (acc : list Turn) :
  exists taken rest, ys = taken ++ rest /\
    trimLoop t ys tot acc = rev taken ++ acc /\ fits t taken tot /\
    match rest with [] => True | y :: _ => t < tot + total taken + turnTokens y end.
Proof.
  revert tot acc. induction ys as [|y ys IH]; intros tot acc; simpl.
  - exists [], []. simpl. auto.
  - cbv zeta. destruct (Z.ltb_spec t (tot + turnTokens y)) as [Hlt|Hge].
    + exists [], (y :: ys). simpl. repeat split; auto. lia.
    + destruct (IH (tot + turnTokens y) (y :: acc)) as [taken [rest [Hys [Hl [Hf Hr]]]]].
      exists (y :: taken), rest. simpl. rewrite Hl, <- app_assoc, Hys.
      repeat split; auto. destruct rest; [exact I | lia].
Qed.

Lemma trimHistoryByTokens_loop (h : list Turn) (t : Z) :
  trimHistoryByTokens h t = trimLoop t (rev h) 0 [].
Proof. destruct h; reflexivity. Qed.

Lemma js_slice_neg {A} (m : nat) (l : list A) :
  js_slice_from (- Z.of_nat m) l = if Nat.eqb m 0 then l else skipn (List.length l - m) l.
Proof.
  unfold js_slice_from. destruct (Nat.eqb_spec m 0) as [->|Hm].
  - simpl. rewrite Z.min_l by lia. reflexivity.
  - replace (- Z.of_nat m <? 0) with true by (symmetry; apply Z.ltb_lt; lia).
    f_equal. destruct (Nat.le_gt_cases m (List.length l)).
    + rewrite Z.max_l by lia. lia.
    + rewrite Z.max_r by lia. lia.
Qed.

Lemma trim_suffix_of_slice (h : list Turn) (t : Z) :
  exists pre, h = pre ++ trimHistoryByTokens h t.
Proof.
  rewrite trimHistoryByTokens_loop.
  destruct (trimLoop_shape t (rev h) 0 []) as [taken [rest [Hys [Hl _]]]].
  exists (rev rest). rewrite Hl, app_nil_r, <- rev_app_distr, <- Hys, rev_involutive.
  reflexivity.
Qed.

End TokensFacts.

Module TokensClaims.
Import Tokens TokensFacts.

Lemma js_slice_skipn {A} (s : Z) (l : list A) : exists n, js_slice_from s l = skipn n l.
Proof. unfold js_slice_from. eexists. reflexivity. Qed.

Lemma trim_slice_length (h : list Turn) (m : nat) :
  m <> 0%nat -> (List.length (js_slice_from (- Z.of_nat m) h) <= m)%nat.
Proof.
  intros Hm. rewrite js_slice_neg. destruct (Nat.eqb_spec m 0); [contradiction|].
  rewrite length_skipn. lia.
Qed.

(** C7.  [trim] always returns a contiguous suffix of its input, in order;
    with 25 turns, [maxMessages = 20] and turns 6-25 within the token budget,
    it returns exactly turns 6-25. *)
Theorem trim_contiguous_suffix :
  (forall h m t, exists pre, h = pre ++ trim h m t) /\
  (forall h t, List.length h = 25%nat -> total (skipn 5 h) <= t ->
     trim h 20 t = skipn 5 h).
Proof.
  split.
  - intros h m t. unfold trim.
    destruct (js_slice_skipn (- Z.of_nat m) h) as [n Hn]. rewrite Hn.
    destruct (trim_suffix_of_slice (skipn n h) t) as [pre2 Hpre2].
    exists (firstn n h ++ pre2). rewrite <- app_assoc, <- Hpre2.
    symmetry. apply firstn_skipn.
  - intros h t Hlen Htot. unfold trim. rewrite js_slice_neg, Hlen. simpl Nat.eqb.
    cbv iota. simpl Nat.sub.
    rewrite trimHistoryByTokens_loop, trimLoop_fits, rev_involutive, app_nil_r;
      [reflexivity|].
    apply fits_of_total. rewrite total_rev. lia.
Qed.

(** C8 (amended).  A turn costs [ceil(L / 4) + 10] where [L] is the length
    of its part texts joined with single spaces (non-text parts count as
    empty texts); the result is the suffix gathered from the most recent
    turn while the running total stays within [maxTokens], stopping at the
    first turn that would exceed it; a non-empty result costs at most
    [maxTokens]. *)
Theorem trimHistoryByTokens_budget (h : list Turn) (t : Z) :
  (forall msg, turnTokens msg
     = (Z.of_nat (String.length (extractText (parts msg))) + 3) / 4 + 10) /\
  exists pre kept, h = pre ++ kept /\ trimHistoryByTokens h t = kept /\
    (kept = [] \/ total kept <= t) /\
    (forall pre' y, pre = pre' ++ [y] -> t < total kept + turnTokens y).
Proof.
  split; [exact turnTokens_formula|].
  rewrite trimHistoryByTokens_loop.
  destruct (trimLoop_shape t (rev h) 0 []) as [taken [rest [Hys [Hl [Hf Hr]]]]].
  exists (rev rest), (rev taken).
  split; [rewrite <- rev_app_distr, <- Hys, rev_involutive; reflexivity|].
  split; [rewrite Hl, app_nil_r; reflexivity|].
  split.
  - destruct (fits_total t taken 0 Hf) as [->|H]; [left; reflexivity|].
    right. rewrite total_rev. lia.
  - intros pre' y Hpre. apply (f_equal (@rev Turn)) in Hpre.
    rewrite rev_involutive, rev_app_distr in Hpre. simpl in Hpre. subst rest.
    rewrite total_rev. lia.
Qed.

(** C9.  [trim] is idempotent for every history, message limit and token
    budget. *)
Theorem trim_idempotent (h : list Turn) (m : nat) (t : Z) :
  trim (trim h m t) m t = trim h m t.
Proof.
  unfold trim at 2 3. set (x := js_slice_from (- Z.of_nat m) h).
  assert (Hx : m <> 0%nat -> (List.length x <= m)%nat) by apply trim_slice_length.
  rewrite (trimHistoryByTokens_loop x t).
  destruct (trimLoop_shape t (rev x) 0 []) as [taken [rest [Hys [Hl [Hf _]]]]].
  rewrite Hl, app_nil_r. unfold trim.
  assert (Hlen : (List.length taken <= List.length x)%nat).
  { rewrite <- (length_rev x), Hys, length_app. lia. }
  rewrite js_slice_neg. destruct (Nat.eqb_spec m 0) as [_|Hm].
  - rewrite trimHistoryByTokens_loop, rev_involutive, trimLoop_fits, app_nil_r; auto.
  - rewrite length_rev.
    replace (List.length taken - m)%nat with 0%nat by (pose proof (Hx Hm); lia).
    simpl skipn.
    rewrite trimHistoryByTokens_loop, rev_involutive, trimLoop_fits, app_nil_r; auto.
Qed.

(** Cost of a turn as the spec words it: [ceil(characterCount / 4) + 10]
    with [characterCount] the number of characters of the turn's texts. *)
Definition spec_characterCount (msg : Turn) : nat :=
  fold_right (fun p n => (match p with TextPart s => String.length s | OtherPart => 0 end + n)%nat)
             0%nat (parts msg).

Definition spec_turnTokens (msg : Turn) : Z :=
  (Z.of_nat (spec_characterCount msg) + 3) / 4 + 10.

Definition twoParts : Turn := mkTurn "user"%string [TextPart "abcd"%string; TextPart "efgh"%string].

(** C8 fails on a turn with two text parts: its 8 characters cost 12 by the
    claim's formula, which fits a budget of 12, but the code also counts the
    joining space (9 characters, cost 13) and drops the turn. *)
Lemma two_parts_cost_separator :
  spec_turnTokens twoParts = 12 /\ turnTokens twoParts = 13 /\
  trimHistoryByTokens [twoParts] 12 = [].
Proof. repeat split; vm_compute; reflexivity. Qed.

Definition h25 : list Turn :=
  map (fun n => mkTurn "user"%string [TextPart (String (Ascii.ascii_of_nat (65 + n)) EmptyString)])
      (seq 0 25).

Lemma trim_contiguous_suffix_witness :
  List.length h25 = 25%nat /\ total (skipn 5 h25) <= 8000 /\
  trim h25 20 8000 = skipn 5 h25.
Proof.
  assert (Hl : List.length h25 = 25%nat) by reflexivity.
  assert (Ht : total (skipn 5 h25) <= 8000) by (vm_compute; discriminate).
  split; [exact Hl|]. split; [exact Ht|].
  exact (proj2 trim_contiguous_suffix h25 8000 Hl Ht).
Defined.

Lemma trimHistoryByTokens_budget_witness :
  exists pre kept, [twoParts] = pre ++ kept /\ trimHistoryByTokens [twoParts] 13 = kept /\
    (kept = [] \/ total kept <= 13) /\
    (forall pre' y, pre = pre' ++ [y] -> 13 < total kept + turnTokens y).
Proof. exact (proj2 (trimHistoryByTokens_budget [twoParts] 13)). Defined.

End TokensClaims.

(** ** Further properties of the rate limiter *)
Module RateLimitMore.
Import RateLimit RateLimitFacts JsMapFacts Sublist JsMapSublist.
Open Scope Q_scope.

Lemma get_set_other {A} (k k' : string) (v : A) (m : JsMap.t A) :
  k <> k' -> JsMap.get k' (JsMap.set k v m) = JsMap.get k' m.
Proof.
  intros Hne. induction m as [|[k0 v0] r IH]; simpl.
  - destruct (String.eqb_spec k k'); [congruence | reflexivity].
  - destruct (String.eqb_spec k0 k) as [->|Hne0]; simpl.
    + destruct (String.eqb_spec k k'); [congruence | reflexivity].
    + destruct (String.eqb k0 k'); [reflexivity | exact IH].
Qed.

Lemma has_false_get {A} (k : string) (m : JsMap.t A) :
  JsMap.has k m = false -> JsMap.get k m = None.
Proof. unfold JsMap.has. destruct (JsMap.get k m); [discriminate | reflexivity]. Qed.

Lemma get_absent {A} (k : string) (m : JsMap.t A) :
  ~ In k (JsMap.keys m) -> JsMap.get k m = None.
Proof. intros H. apply has_false_get, has_false_iff, H. Qed.

Lemma get_filter_nodup {A} (f : string * A -> bool) (k : string) (m : JsMap.t A) :
  NoDup (JsMap.keys m) ->
  JsMap.get k (filter f m)
    = match JsMap.get k m with Some v => if f (k, v) then Some v else None | None => None end.
Proof.
  induction m as [|[k0 v0] r IH]; simpl; intros Hnd; [reflexivity|].
  inversion Hnd as [|? ? Hnin Hnd']; subst.
  destruct (String.eqb_spec k0 k) as [->|Hne].
  - destruct (f (k, v0)) eqn:Hf; simpl.
    + rewrite String.eqb_refl. reflexivity.
    + apply get_absent. intros Hin. apply Hnin.
      exact (sublist_In _ _ _ (sublist_map fst _ _ (filter_sublist f r)) Hin).
  - destruct (f (k0, v0)); simpl; [|auto].
    destruct (String.eqb_spec k0 k); [congruence | auto].
Qed.

Section More.
Variable maxTokens refillRate : Q.

Lemma reachable_nodup (s : Buckets) :
  reachable maxTokens refillRate s -> NoDup (JsMap.keys s).
Proof.
  induction 1 as [| k now s Hnow Hs IH | k s Hs IH | now s Hnow Hs IH].
  - constructor.
  - unfold check. destruct (JsMap.get k s); [destruct (_ && _); [|destruct (Qle_bool _ _)]|];
      simpl; apply set_nodup, IH.
  - exact (sublist_NoDup _ _ (sublist_map fst _ _ (delete_sublist k s)) IH).
  - exact (sublist_NoDup _ _ (sublist_map fst _ _ (filter_sublist _ s)) IH).
Qed.

(** After [reset(key)] the next [check(key)] starts a fresh bucket: allowed,
    [remaining = maxTokens - 1], and the bucket stores [maxTokens - 1] tokens
    with [lastRefill = lastRequest = now]. *)
Theorem reset_then_check (s : Buckets) (k : string) (now : Z) :
  reachable maxTokens refillRate s ->
  fst (check maxTokens refillRate k now (reset k s)) = mkResult true (maxTokens - 1) None /\
  JsMap.get k (snd (check maxTokens refillRate k now (reset k s)))
    = Some (mkEntry (maxTokens - 1) now (Some now)).
Proof.
  intros Hr. unfold check, reset.
  rewrite (has_false_get _ _ (delete_absent_nodup _ _ (reachable_nodup s Hr))).
  split; [reflexivity | apply get_set_same].
Qed.

(** [check(key)] and [reset(key)] never change the bucket of another key. *)
Theorem check_reset_other_keys (s : Buckets) (k k' : string) (now : Z) :
  k <> k' ->
  JsMap.get k' (snd (check maxTokens refillRate k now s)) = JsMap.get k' s /\
  JsMap.get k' (reset k s) = JsMap.get k' s.
Proof.
  intros Hne. split; [|apply get_delete_other, Hne].
  unfold check. destruct (JsMap.get k s);
    [destruct (_ && _); [|destruct (Qle_bool _ _)]|]; simpl; apply get_set_other, Hne.
Qed.

(** [cleanup()] deletes exactly the buckets whose [lastRefill] is more than
    five minutes before [now] and keeps every other bucket unchanged. *)
Theorem cleanup_removes_stale (s : Buckets) (now : Z) (k : string) :
  reachable maxTokens refillRate s ->
  JsMap.get k (cleanup now s)
    = match JsMap.get k s with
      | Some e => if Z.ltb staleThreshold (now - lastRefill e) then None else Some e
      | None => None
      end.
Proof.
  intros Hr. unfold cleanup. rewrite get_filter_nodup by exact (reachable_nodup s Hr).
  destruct (JsMap.get k s) as [e|]; [|reflexivity]. simpl.
  destruct (Z.ltb _ _); reflexivity.
Qed.

End More.
End RateLimitMore.

(** ** Further properties of the LRU cache *)
Module LRUMoreFacts.
Import LRU LRUMore LRUFacts JsMapFacts Sublist JsMapSublist RateLimitMore.

Lemma delete_app_absent {A} (k : string) (pre l : JsMap.t A) :
  ~ In k (JsMap.keys pre) -> JsMap.delete k (pre ++ l) = pre ++ JsMap.delete k l.
Proof.
  induction pre as [|[k0 v0] r IH]; simpl; intros Hn; [reflexivity|].
  destruct (String.eqb_spec k0 k) as [->|]; [exfalso; apply Hn; left; reflexivity|].
  rewrite IH; [reflexivity | intros H; apply Hn; right; exact H].
Qed.

Lemma skipn_S_tl {A} (m : nat) (l : list A) : skipn (S m) l = tl (skipn m l).
Proof.
  revert l. induction m as [|m IH]; intros [|x l]; simpl; try reflexivity.
  rewrite <- IH. reflexivity.
Qed.

Lemma in_skipn_l {A} (m : nat) (l : list A) (x : A) : In x (skipn m l) -> In x l.
Proof.
  intros H. rewrite <- (firstn_skipn m l). apply in_or_app. right. exact H.
Qed.

Section More.
Context {V : Type}.

Lemma run_app (o : Options) (tr1 tr2 : list (Op V * Z)) c :
  run o (tr1 ++ tr2) c = run o tr2 (run o tr1 c).
Proof. revert c. induction tr1 as [|[op now] tr1 IH]; intros c; simpl; auto. Qed.

(** Inside [prune()], with a non-zero [ttl = t]: the entries already
    visited and kept form [pre]; the loop removes exactly the expired entries
    still to visit and counts them. *)
Lemma prune_loop_exact (o : Options) (t now : Z) (pre visit : Cache (V:=V)) n ev :
  NoDup (JsMap.keys (pre ++ visit)) ->
  fst (fst (prune_loop o t now visit (pre ++ visit) n ev))
    = (n + Z.of_nat (List.length (filter (fun p => Z.ltb t (now - timestamp (snd p))) visit)))%Z /\
  snd (fst (prune_loop o t now visit (pre ++ visit) n ev))
    = pre ++ filter (fun p => negb (Z.ltb t (now - timestamp (snd p)))) visit.
Proof.
  revert pre n ev. induction visit as [|[k e] rest IH]; intros pre n ev Hnd; simpl.
  - rewrite app_nil_r. split; [lia | reflexivity].
  - assert (Hk : ~ In k (JsMap.keys pre)).
    { unfold JsMap.keys in Hnd. rewrite map_app in Hnd. simpl in Hnd.
      intros Hin. apply NoDup_remove_2 in Hnd. apply Hnd. apply in_or_app. left. exact Hin. }
    destruct (t <? now - timestamp e)%Z; simpl.
    + rewrite delete_app_absent by exact Hk. simpl. rewrite String.eqb_refl.
      assert (Hnd' : NoDup (JsMap.keys (pre ++ rest))).
      { unfold JsMap.keys in *. rewrite map_app in *. simpl in Hnd.
        apply NoDup_remove_1 in Hnd. exact Hnd. }
      edestruct (IH pre (n + 1)%Z) as [H1 H2]; [exact Hnd'|].
      rewrite H1, H2. rewrite Zpos_P_of_succ_nat. split; [lia | reflexivity].
    + replace (pre ++ (k, e) :: rest) with ((pre ++ [(k, e)]) ++ rest)
        by (rewrite <- app_assoc; reflexivity).
      replace (pre ++ (k, e) :: rest) with ((pre ++ [(k, e)]) ++ rest) in Hnd
        by (rewrite <- app_assoc; reflexivity).
      destruct (IH (pre ++ [(k, e)]) n ev Hnd) as [H1 H2].
      split; [exact H1 | rewrite H2, <- app_assoc; reflexivity].
Qed.

(** [prune()] deletes exactly the expired entries, keeps the others in
    order, and returns how many it deleted; with a [ttl] of 0 or null
    nothing is expired, so it returns 0 and changes nothing. *)
Theorem prune_exact (o : Options) (tr : list (Op V * Z)) (now : Z) :
  let c := run o tr [] in
  fst (fst (prune o now c)) = Z.of_nat (List.length (filter (fun p => expired o now (snd p)) c)) /\
  snd (fst (prune o now c)) = filter (fun p => negb (expired o now (snd p))) c.
Proof.
  intros c. assert (Hnd : NoDup (JsMap.keys c)) by (apply run_nodup; constructor).
  clearbody c.
  assert (Hnone : (forall e : CacheEntry (V:=V), expired o now e = false) ->
     (Z.of_nat (List.length (filter (fun p => expired o now (snd p)) c)) = 0)%Z /\
     (filter (fun p => negb (expired o now (snd p))) c = c)).
  { intros Hx.
    rewrite (filter_ext (fun p => expired o now (snd p)) (fun _ => false))
      by (intros p; apply Hx).
    rewrite (filter_ext (fun p => negb (expired o now (snd p))) (fun _ => true))
      by (intros p; rewrite Hx; reflexivity).
    rewrite filter_false, filter_true. split; reflexivity. }
  unfold prune. destruct (ttl o) as [t|] eqn:Ho.
  - destruct (t =? 0)%Z eqn:Ht.
    + destruct Hnone as [H1 H2]; [intros e; unfold expired; rewrite Ho, Ht; reflexivity|].
      rewrite H1, H2. split; reflexivity.
    + assert (Hx : forall p : string * CacheEntry (V:=V),
                 expired o now (snd p) = (t <? now - timestamp (snd p))%Z).
      { intros p. unfold expired. rewrite Ho, Ht. reflexivity. }
      rewrite (filter_ext _ _ Hx).
      rewrite (filter_ext (fun p => negb (expired o now (snd p)))
                 (fun p => negb (t <? now - timestamp (snd p))%Z))
        by (intros p; rewrite Hx; reflexivity).
      exact (prune_loop_exact o t now [] c 0 [] Hnd).
  - destruct Hnone as [H1 H2]; [intros e; unfold expired; rewrite Ho; reflexivity|].
    rewrite H1, H2. split; reflexivity.
Qed.

(** The value returned by [get] after [set(key, value)] at time [now] is
    [value] unless the fresh entry has expired by the time of the [get]. *)
Theorem set_then_get (o : Options) (k : string) (v : V) (now now' : Z) (c : Cache (V:=V)) :
  fst (fst (get o k now' (fst (set o k v now c))))
    = if expired o now' (mkCE v now) then None else Some v.
Proof.
  unfold set. destruct (if JsMap.has k c then _ else _) as [c1 ev].
  unfold get. cbn [fst]. rewrite get_set_same.
  destruct (expired o now' (mkCE v now)); [|reflexivity].
  destruct (delete o k _) as [[b c'] ev']. reflexivity.
Qed.

(** [entries()] yields exactly the pairs [(key, value)] for which [get(key)]
    at the same time would return [value]. *)
Theorem entries_iff_get (o : Options) (tr : list (Op V * Z)) (now : Z) (k : string) (v : V) :
  let c := run o tr [] in
  In (k, v) (entries o now c) <-> fst (fst (get o k now c)) = Some v.
Proof.
  intros c. assert (Hnd : NoDup (JsMap.keys c)) by (apply run_nodup; constructor).
  clearbody c.
  assert (Hp : forall e : CacheEntry (V:=V),
            (match ttl o with
             | Some t => (t =? 0)%Z || (now - timestamp e <=? t)%Z
             | None => true
             end) = negb (expired o now e)).
  { intros e. unfold expired. destruct (ttl o) as [t|]; [|reflexivity].
    destruct (t =? 0)%Z; [reflexivity|]. simpl.
    destruct (Z.leb_spec (now - timestamp e) t); destruct (Z.ltb_spec t (now - timestamp e));
      first [reflexivity | lia]. }
  unfold entries, get. split.
  - intros Hin. apply in_map_iff in Hin as [[k' e] [Heq Hin]].
    injection Heq as -> <-. apply filter_In in Hin as [Hin Hf].
    rewrite (nodup_in_get _ _ _ Hnd Hin). cbn [snd] in Hf. rewrite Hp in Hf.
    destruct (expired o now e); [discriminate | reflexivity].
  - destruct (JsMap.get k c) as [e|] eqn:Hg; [|discriminate].
    destruct (expired o now e) eqn:Hx.
    + destruct (delete o k c) as [[b c'] ev']. discriminate.
    + intros H. injection H as <-. apply in_map_iff. exists (k, e). split; [reflexivity|].
      apply filter_In. split.
      * clear Hp Hx. induction c as [|[k0 e0] r IH]; simpl in *; [discriminate|].
        inversion Hnd; subst.
        destruct (String.eqb_spec k0 k) as [->|]; [injection Hg as ->; auto | auto].
      * cbn [snd]. rewrite Hp, Hx. reflexivity.
Qed.

Lemma keys_set_absent (k : string) (x : CacheEntry (V:=V)) (c : Cache (V:=V)) :
  JsMap.has k c = false -> JsMap.keys (JsMap.set k x c) = JsMap.keys c ++ [k].
Proof. intros H. rewrite set_absent by exact H. apply keys_snoc. Qed.

(** Without reads, deletes or clears, [set] of distinct keys keeps exactly
    the [maxSize] most recently inserted keys, in insertion order: every
    eviction removes the oldest insertion. *)
Theorem set_distinct_keeps_latest (o : Options) (xs : list (string * V * Z)) :
  (1 <= maxSize o)%Z -> NoDup (map (fun x => fst (fst x)) xs) ->
  JsMap.keys (run o (map (fun x => (OSet (fst (fst x)) (snd (fst x)), snd x)) xs) [])
    = skipn (List.length xs - Z.to_nat (maxSize o)) (map (fun x => fst (fst x)) xs).
Proof.
  intros Hmax. induction xs as [|[[k v] t] xs IH] using rev_ind; intros Hnd; [reflexivity|].
  rewrite map_app, run_app. rewrite map_app in Hnd. cbn [map fst snd] in Hnd |- *.
  set (ks := map (fun x => fst (fst x)) xs) in *.
  assert (Hk : ~ In k ks).
  { intros Hin. apply (NoDup_remove_2 ks [] k Hnd). rewrite app_nil_r. exact Hin. }
  assert (Hks : NoDup ks) by exact (NoDup_app_remove_r _ _ Hnd).
  specialize (IH Hks).
  remember (run o (map (fun x => (OSet (fst (fst x)) (snd (fst x)), snd x)) xs) []) as c eqn:Hc.
  clear Hc. cbn [run step].
  assert (Hh : JsMap.has k c = false).
  { apply has_false_iff. rewrite IH. intros Hin. apply Hk. exact (in_skipn_l _ _ _ Hin). }
  assert (Hlk : List.length ks = List.length xs) by apply length_map.
  assert (Hlen : List.length c = (List.length xs - (List.length xs - Z.to_nat (maxSize o)))%nat).
  { rewrite <- (length_map fst c). change (map fst c) with (JsMap.keys c).
    rewrite IH, length_skipn, Hlk. reflexivity. }
  rewrite length_app, map_app, skipn_app. cbn [map fst List.length]. fold ks. rewrite Hlk.
  unfold set. rewrite Hh.
  destruct (Nat.le_gt_cases (Z.to_nat (maxSize o)) (List.length xs)) as [Hge|Hlt].
  - replace (Z.leb (maxSize o) (JsMap.size c)) with true
      by (symmetry; apply Z.leb_le; unfold JsMap.size; rewrite Hlen; lia).
    destruct c as [|[fk fe] rest]; [simpl in Hlen; lia|].
    cbn [JsMap.keys map fst JsMap.get JsMap.delete]. rewrite String.eqb_refl. cbn [fst].
    assert (Hr : JsMap.has k rest = false).
    { rewrite has_cons in Hh. destruct (String.eqb fk k); [discriminate | exact Hh]. }
    change (map fst (JsMap.set k (mkCE v t) rest)) with (JsMap.keys (JsMap.set k (mkCE v t) rest)).
    rewrite keys_set_absent by exact Hr.
    replace (List.length xs + 1 - Z.to_nat (maxSize o))%nat
      with (S (List.length xs - Z.to_nat (maxSize o))) by lia.
    replace (S (List.length xs - Z.to_nat (maxSize o)) - List.length xs)%nat with 0%nat by lia.
    rewrite skipn_S_tl, <- IH. reflexivity.
  - replace (Z.leb (maxSize o) (JsMap.size c)) with false
      by (symmetry; apply Z.leb_gt; unfold JsMap.size; rewrite Hlen; lia).
    cbn [fst]. rewrite keys_set_absent by exact Hh. rewrite IH.
    replace (List.length xs - Z.to_nat (maxSize o))%nat with 0%nat by lia.
    replace (List.length xs + 1 - Z.to_nat (maxSize o))%nat with 0%nat by lia.
    reflexivity.
Qed.

(** After a [get] that hits, the next [set] of any key (at capacity or
    not) does not evict the key just read, provided the cache held at least
    two entries. *)
Theorem get_protects_from_eviction (o : Options) (tr : list (Op V * Z)) (k k2 : string)
    (e : CacheEntry (V:=V)) (v : V) (now now' : Z) :
  let c := run o tr [] in
  JsMap.get k c = Some e -> expired o now e = false -> (2 <= List.length c)%nat ->
  JsMap.has k (fst (set o k2 v now' (snd (fst (get o k now c))))) = true.
Proof.
  intros c Hg Hx Hlen.
  assert (Hnd : NoDup (JsMap.keys c)) by (apply run_nodup; constructor).
  clearbody c. unfold get. rewrite Hg, Hx. cbn [fst snd].
  set (d := JsMap.delete k c).
  assert (Hd : JsMap.has k d = false) by (apply delete_absent_nodup, Hnd).
  assert (Hld : S (List.length d) = List.length c)
    by (apply length_delete_present, (has_get _ _ _ Hg)).
  rewrite set_absent by exact Hd.
  set (x := mkCE (value e) now).
  assert (Hin : forall m, JsMap.has k m = true -> JsMap.has k (JsMap.set k2 (mkCE v now') m) = true).
  { intros m Hm. unfold JsMap.has.
    destruct (String.eqb_spec k2 k) as [->|Hne]; [rewrite get_set_same; reflexivity|].
    rewrite get_set_other by exact Hne. exact Hm. }
  assert (Hkx : JsMap.has k (d ++ [(k, x)]) = true).
  { unfold JsMap.has. rewrite <- set_absent by exact Hd. rewrite get_set_same. reflexivity. }
  unfold set. destruct (JsMap.has k2 (d ++ [(k, x)])) eqn:Hh2.
  - cbn [fst]. destruct (String.eqb_spec k2 k) as [->|Hne].
    + unfold JsMap.has. rewrite get_set_same. reflexivity.
    + apply Hin. unfold JsMap.has. rewrite get_delete_other by exact Hne. exact Hkx.
  - destruct (Z.leb (maxSize o) (JsMap.size (d ++ [(k, x)]))); cbn [fst]; [|apply Hin, Hkx].
    destruct d as [|[fk fe] rest] eqn:Hdd; [simpl in Hld; lia|].
    cbn [JsMap.keys map fst app]. apply Hin.
    assert (Hne : fk <> k).
    { intros ->. rewrite has_cons, String.eqb_refl in Hd. discriminate. }
    unfold JsMap.has. rewrite get_delete_other by exact Hne. exact Hkx.
Qed.

End More.
End LRUMoreFacts.

(** ** Further properties of the session store and of [ChatService] *)
Module SessionMoreFacts.
Import Sessions SessionOps JsMapFacts Sublist JsMapSublist RateLimitMore.

Lemma filter_filter {A} (f g : A -> bool) (l : list A) :
  filter f (filter g l) = filter (fun x => g x && f x) l.
Proof.
  induction l as [|x l IH]; simpl; [reflexivity|].
  destruct (g x); simpl; [destruct (f x); simpl; rewrite IH; reflexivity | exact IH].
Qed.

Lemma filter_key_absent {A} (k : string) (m : JsMap.t A) :
  ~ In k (JsMap.keys m) -> filter (fun p => negb (String.eqb (fst p) k)) m = m.
Proof.
  induction m as [|[k0 v0] r IH]; simpl; intros Hn; [reflexivity|].
  destruct (String.eqb_spec k0 k) as [->|]; [exfalso; apply Hn; left; reflexivity|].
  simpl. rewrite IH; [reflexivity | intros H; apply Hn; right; exact H].
Qed.

Lemma delete_nodup_filter {A} (k : string) (m : JsMap.t A) :
  NoDup (JsMap.keys m) -> JsMap.delete k m = filter (fun p => negb (String.eqb (fst p) k)) m.
Proof.
  induction m as [|[k0 v0] r IH]; simpl; intros Hnd; [reflexivity|].
  inversion Hnd as [|? ? Hnin Hnd']; subst.
  destruct (String.eqb_spec k0 k) as [->|]; simpl.
  - symmetry. apply filter_key_absent, Hnin.
  - rewrite IH by exact Hnd'. reflexivity.
Qed.

Lemma fold_delete_filter {A} (ids : list string) (m : JsMap.t A) :
  NoDup (JsMap.keys m) ->
  fold_left (fun acc id => JsMap.delete id acc) ids m
    = filter (fun p => negb (existsb (fun id => String.eqb (fst p) id) ids)) m.
Proof.
  revert m. induction ids as [|id ids IH]; intros m Hnd; simpl.
  - symmetry. apply filter_true.
  - rewrite IH.
    + rewrite delete_nodup_filter by exact Hnd. rewrite filter_filter.
      apply filter_ext. intros p. destruct (String.eqb (fst p) id); reflexivity.
    + exact (sublist_NoDup _ _ (sublist_map fst _ _ (delete_sublist id m)) Hnd).
Qed.

Lemma keys_set_present {A} (k : string) (v : A) (m : JsMap.t A) :
  JsMap.has k m = true -> JsMap.keys (JsMap.set k v m) = JsMap.keys m.
Proof.
  induction m as [|[k0 v0] r IH]; simpl; [discriminate|].
  rewrite has_cons. destruct (String.eqb_spec k0 k) as [->|]; simpl; [reflexivity|].
  intros H. change (k0 :: JsMap.keys (JsMap.set k v r) = k0 :: JsMap.keys r).
  rewrite IH by exact H. reflexivity.
Qed.

Section More.
Context {Handle Content : Type}.
Implicit Types (s : Store (Handle:=Handle) (Content:=Content)).

(** A session stored by [set] at time [now] is returned by [get] (and by
    [getSessionData], with its history, a message count equal to the
    history's length, [createdAt = now] and [lastAccessed] refreshed) at
    any time [now'] with [now' - now <= sessionTimeout]. *)
Theorem session_set_then_get (cfg : CacheConfig) (k : string) (h : Handle) (hist : list Content)
    (now now' : Z) s :
  (now' - now <= sessionTimeout cfg)%Z ->
  fst (get cfg k now' (set cfg k h hist now s)) = Some h /\
  fst (getSessionData cfg k now' (set cfg k h hist now s))
    = Some (mkCS h now' now (List.length hist) hist).
Proof.
  intros Hle. unfold get, getSessionData, set. rewrite get_set_same. cbn [lastAccessed].
  replace (sessionTimeout cfg <? now' - now)%Z with false
    by (symmetry; apply Z.ltb_ge; lia).
  split; reflexivity.
Qed.

(** [incrementMessageCount] and [updateHistory] do nothing for a user
    without a session (they never create one); for a stored session they
    change only that record (count plus one, or the new history, and
    [lastAccessed = now]) and keep every key in its place. *)
Theorem update_ops_in_place (k : string) (h : list Content) (now : Z) s :
  (JsMap.get k s = None -> incrementMessageCount k now s = s /\ updateHistory k h now s = s) /\
  (forall c, JsMap.get k s = Some c ->
     JsMap.keys (incrementMessageCount k now s) = JsMap.keys s /\
     JsMap.keys (updateHistory k h now s) = JsMap.keys s /\
     JsMap.get k (incrementMessageCount k now s)
       = Some (mkCS (session c) now (createdAt c) (S (messageCount c)) (history c)) /\
     JsMap.get k (updateHistory k h now s)
       = Some (mkCS (session c) now (createdAt c) (messageCount c) h) /\
     (forall k', k' <> k ->
        JsMap.get k' (incrementMessageCount k now s) = JsMap.get k' s /\
        JsMap.get k' (updateHistory k h now s) = JsMap.get k' s)).
Proof.
  unfold incrementMessageCount, updateHistory. split.
  - intros Hg. rewrite Hg. split; reflexivity.
  - intros c Hg. rewrite Hg. pose proof (has_get _ _ _ Hg) as Hh.
    split; [apply keys_set_present, Hh|].
    split; [apply keys_set_present, Hh|].
    split; [apply get_set_same|]. split; [apply get_set_same|].
    intros k' Hne. split; apply get_set_other; congruence.
Qed.

(** The periodic [cleanup()] removes exactly the sessions idle for more than
    [sessionTimeout] and keeps the others, in order. *)
Theorem cleanup_removes_expired (cfg : CacheConfig) (now : Z) s :
  NoDup (JsMap.keys s) ->
  cleanup cfg now s
    = filter (fun p => negb (Z.ltb (sessionTimeout cfg) (now - lastAccessed (snd p)))) s.
Proof.
  intros Hnd. unfold cleanup. rewrite fold_delete_filter by exact Hnd.
  apply filter_ext_in. intros [k c] Hin. f_equal. cbn [fst snd].
  destruct (Z.ltb (sessionTimeout cfg) (now - lastAccessed c)) eqn:Hx.
  - apply existsb_exists. exists k. split; [|apply String.eqb_refl].
    apply in_map_iff. exists (k, c). split; [reflexivity|]. apply filter_In. auto.
  - apply not_true_iff_false. intros Hex. apply existsb_exists in Hex as [id [Hid Heq]].
    apply String.eqb_eq in Heq. subst id.
    apply in_map_iff in Hid as [[k' c'] [Hk' Hin']]. cbn [fst] in Hk'. subst k'.
    apply filter_In in Hin' as [Hin' Hx'].
    pose proof (nodup_in_get _ _ _ Hnd Hin) as G1.
    rewrite (nodup_in_get _ _ _ Hnd Hin') in G1.
    injection G1 as <-. cbn [snd] in Hx'. congruence.
Qed.

End More.
End SessionMoreFacts.

Module ServiceFacts.
Import Service RateLimit RateLimitMore JsMapFacts.
Open Scope Q_scope.

(** The rate-limit gate of [processRequest] lets a request through exactly
    when [check] allows it; with a positive refill rate, a rejection always
    carries a [retryAfter] of at least one second. *)
Theorem rateGate_retry_positive (maxTokens refillRate : Q) (u : string) (now : Z)
    (b : Buckets) :
  0 < refillRate ->
  (fst (rateGate maxTokens refillRate u now b) = None <->
     allowed (fst (check maxTokens refillRate u now b)) = true) /\
  (forall n, fst (rateGate maxTokens refillRate u now b) = Some n -> (1 <= n)%Z).
Proof.
  intros Hrate. unfold rateGate.
  destruct (check maxTokens refillRate u now b) as [rc b'] eqn:Hc.
  destruct (allowed rc) eqn:Ha; cbn [fst]; [split; [tauto | intros m Hm; discriminate Hm]|].
  split; [split; intros Hf; [discriminate Hf | rewrite Ha in Hf; discriminate Hf]|].
  intros n Hn. injection Hn as <-.
  assert (Hr : retryAfter rc = Some 1%Z \/
               exists t, t < 1 /\ retryAfter rc = Some (Qceiling ((1 - t) / refillRate))).
  { unfold check in Hc. destruct (JsMap.get u b) as [e|].
    - destruct (_ && _).
      + injection Hc as <- _. left. reflexivity.
      + destruct (Qle_bool 1 _) eqn:Hq.
        * injection Hc as <- _. discriminate.
        * injection Hc as <- _. right. eexists. split; [|reflexivity].
          apply Qnot_le_lt. intros H. apply Qle_bool_iff in H. cbn [tokens refill] in *. congruence.
    - injection Hc as <- _. discriminate. }
  destruct Hr as [-> | [t [Ht ->]]]; [reflexivity|].
  assert (Hq : 0 < (1 - t) / refillRate) by (apply Qlt_shift_div_l; [exact Hrate | lra]).
  assert (Hc1 : 0 < inject_Z (Qceiling ((1 - t) / refillRate)))
    by (apply Qlt_le_trans with (1 := Hq); apply Qle_ceiling).
  change 0 with (inject_Z 0) in Hc1. rewrite <- Zlt_Qlt in Hc1.
  destruct (Z.eqb_spec (Qceiling ((1 - t) / refillRate)) 0); lia.
Qed.

(** After a session step the store holds the returned chat for the user,
    stamped with the time of the step. *)
Lemma sessionStep_stores {Handle : Type} (cfg : Sessions.CacheConfig)
    (startChat : list Tokens.Turn -> Handle) (u : string) (history : list Tokens.Turn)
    (now : Z) (s : Sessions.Store (Handle:=Handle) (Content:=Tokens.Turn)) :
  exists c, JsMap.get u (snd (sessionStep cfg startChat u history now s)) = Some c /\
            Sessions.session c = fst (sessionStep cfg startChat u history now s) /\
            Sessions.lastAccessed c = now.
Proof.
  unfold sessionStep, Sessions.get, Sessions.set.
  destruct (JsMap.get u s) as [c|].
  - destruct (Sessions.sessionTimeout cfg <? now - Sessions.lastAccessed c)%Z.
    + eexists. split; [apply get_set_same | split; reflexivity].
    + eexists. split; [apply get_set_same | split; reflexivity].
  - eexists. split; [apply get_set_same | split; reflexivity].
Qed.

(** Session handling of [processRequest] over two requests: when the same
    user sends a second request at most [sessionTimeout] ms after the first,
    with no other operation on the session store in between, the second request continues the chat of the first one, whatever
    history it carries, and the session's [lastAccessed] moves to the
    second request's time. *)
Theorem sessionStep_second_request_reuses {Handle : Type} (cfg : Sessions.CacheConfig)
    (startChat : list Tokens.Turn -> Handle) (u : string) (h1 h2 : list Tokens.Turn)
    (t1 t2 : Z) (s : Sessions.Store (Handle:=Handle) (Content:=Tokens.Turn)) :
  (t2 - t1 <= Sessions.sessionTimeout cfg)%Z ->
  let step1 := sessionStep cfg startChat u h1 t1 s in
  let step2 := sessionStep cfg startChat u h2 t2 (snd step1) in
  fst step2 = fst step1 /\
  exists c, JsMap.get u (snd step2) = Some c /\ Sessions.session c = fst step1 /\
            Sessions.lastAccessed c = t2.
Proof.
  intros Hle step1 step2.
  destruct (sessionStep_stores cfg startChat u h1 t1 s) as [c [Hg [Hs Ht]]].
  fold step1 in Hg, Hs.
  assert (Hstep2 : step2 = (Sessions.session c, JsMap.set u (Sessions.touch c t2) (snd step1))).
  { unfold step2, sessionStep, Sessions.get. rewrite Hg.
    replace (Sessions.sessionTimeout cfg <? t2 - Sessions.lastAccessed c)%Z with false
      by (symmetry; apply Z.ltb_ge; lia).
    reflexivity. }
  rewrite Hstep2. cbn [fst snd]. split; [exact Hs|].
  eexists. split; [apply get_set_same | split; [exact Hs | reflexivity]].
Qed.

End ServiceFacts.

(** ** Further properties of history trimming *)
Module TokensMoreFacts.
Import Tokens TokensMore TokensFacts TokensClaims.

(** A [{ text: string }] turn seen as a [Turn] of text parts. *)
Definition textToTurn (m : TextTurn) : Turn := mkTurn (trole m) (map TextPart (tparts m)).

(** A worker part seen as a part of [trimHistoryByTokens]: [extractText]
    reads a present [text] through [String(...)], so [undefined] and [null]
    become the texts ["undefined"] and ["null"]; a part without [text] is a
    non-text part. *)
Definition workerPartToPart (p : WorkerPart) : Part :=
  match p with
  | WText t => TextPart t
  | WNoText => OtherPart
  | WUndefinedText => TextPart "undefined"
  | WNullText => TextPart "null"
  end.

(** A worker message seen as a [Turn].  With absent [parts],
    [extractText(msg.parts)] throws; such messages are mapped to an empty
    part list and excluded by [workerMsgPlain]. *)
Definition workerToTurn (m : WorkerMsg) : Turn :=
  mkTurn (wrole m)
    (match wparts m with
     | Some ps => map workerPartToPart ps
     | None => []
     end).

(** The message has [parts], and no part has a [text] that is present but
    [undefined] or [null]. *)
Definition workerMsgPlain (m : WorkerMsg) : bool :=
  match wparts m with
  | Some ps => forallb (fun p => match p with WText _ | WNoText => true | _ => false end) ps
  | None => false
  end.

Lemma textTurnTokens_eq (m : TextTurn) : textTurnTokens m = turnTokens (textToTurn m).
Proof.
  unfold textTurnTokens, turnTokens, textToTurn, extractText. cbn [parts].
  rewrite map_map, map_id. reflexivity.
Qed.

Lemma workerTokens_eq (m : WorkerMsg) :
  workerMsgPlain m = true ->
  estimateTokens (workerText m) + 10 = turnTokens (workerToTurn m).
Proof.
  unfold workerMsgPlain, workerText, turnTokens, workerToTurn. cbn [parts].
  destruct (wparts m) as [ps|]; [|discriminate]. intros Hps.
  set (j := String.concat " " (map workerPartText ps)).
  assert (Hj : extractText (map workerPartToPart ps) = j).
  { unfold extractText, j. rewrite map_map. f_equal. apply map_ext_in. intros p Hp.
    rewrite forallb_forall in Hps. specialize (Hps p Hp).
    destruct p as [t| | |]; try discriminate; simpl; [|reflexivity].
    destruct (String.eqb_spec t ""%string) as [->|]; reflexivity. }
  rewrite Hj. destruct (String.eqb_spec j ""%string) as [E|]; [rewrite E|]; reflexivity.
Qed.

Lemma trimLoopText_eq (t : Z) (ys : list TextTurn) (tot : Z) (acc : list TextTurn) :
  map textToTurn (trimLoopText t ys tot acc)
    = trimLoop t (map textToTurn ys) tot (map textToTurn acc).
Proof.
  revert tot acc. induction ys as [|y ys IH]; intros tot acc; simpl; [reflexivity|].
  rewrite textTurnTokens_eq. destruct (t <? tot + turnTokens (textToTurn y)); [reflexivity|].
  apply IH.
Qed.

Lemma workerLoop_eq (t : Z) (ys : list WorkerMsg) (tot : Z) (acc : list WorkerMsg) :
  Forall (fun m => workerMsgPlain m = true) ys ->
  map workerToTurn (workerLoop t ys tot acc)
    = trimLoop t (map workerToTurn ys) tot (map workerToTurn acc).
Proof.
  intros Hys. revert tot acc. induction Hys as [|y ys Hy _ IH]; intros tot acc; simpl;
    [reflexivity|].
  rewrite (workerTokens_eq y Hy).
  destruct (t <? tot + turnTokens (workerToTurn y)); [reflexivity|].
  apply IH.
Qed.

(** The second [trimHistoryByTokens] of [src/unnamed/part_013] keeps the
    same turns as the first one on every history of text parts. *)
Theorem trimHistoryByTokensText_agrees (h : list TextTurn) (t : Z) :
  map textToTurn (trimHistoryByTokensText h t) = trimHistoryByTokens (map textToTurn h) t.
Proof.
  unfold trimHistoryByTokensText. rewrite trimHistoryByTokens_loop.
  destruct h as [|x h]; [reflexivity|].
  rewrite trimLoopText_eq, map_rev. reflexivity.
Qed.

(** The worker's ["trimHistory"] request, on a history whose messages all
    have [parts] and no part with a [text] present but [undefined] or
    [null], keeps the same turns as [trimHistoryByTokens] with the requested
    budget, except that a budget of 0 or an absent one means 8000; an
    absent history gives []. *)
Theorem workerTrimHistory_agrees (h : list WorkerMsg) :
  forallb workerMsgPlain h = true ->
  (forall t, t <> 0 ->
     map workerToTurn (workerTrimHistory (Some t) (Some h))
       = trimHistoryByTokens (map workerToTurn h) t) /\
  map workerToTurn (workerTrimHistory (Some 0) (Some h))
    = trimHistoryByTokens (map workerToTurn h) 8000 /\
  map workerToTurn (workerTrimHistory None (Some h))
    = trimHistoryByTokens (map workerToTurn h) 8000 /\
  (forall mt, workerTrimHistory mt None = []).
Proof.
  intros Hh.
  assert (Hr : Forall (fun m => workerMsgPlain m = true) (rev h)).
  { apply Forall_rev, Forall_forall. intros m Hm. rewrite forallb_forall in Hh. apply Hh, Hm. }
  unfold workerTrimHistory. rewrite !trimHistoryByTokens_loop, <- map_rev.
  split; [|split; [|split]].
  - intros t Ht. replace (t =? 0) with false by (symmetry; apply Z.eqb_neq, Ht).
    rewrite trimHistoryByTokens_loop, <- map_rev. apply workerLoop_eq, Hr.
  - apply workerLoop_eq, Hr.
  - apply workerLoop_eq, Hr.
  - intros [t|]; [destruct (t =? 0)|]; reflexivity.
Qed.

Lemma trimLoop_mono (t1 t2 : Z) (ys : list Turn) (tot : Z) (acc : list Turn) :
  t1 <= t2 -> exists mid, trimLoop t2 ys tot acc = mid ++ trimLoop t1 ys tot acc.
Proof.
  intros Ht. revert tot acc. induction ys as [|y ys IH]; intros tot acc; simpl.
  - exists []. reflexivity.
  - destruct (Z.ltb_spec t1 (tot + turnTokens y)) as [H1|H1].
    + destruct (t2 <? tot + turnTokens y); [exists []; reflexivity|].
      destruct (trimLoop_shape t2 ys (tot + turnTokens y) (y :: acc))
        as [taken [rest [_ [Hl _]]]].
      exists (rev taken ++ [y]). rewrite Hl, <- app_assoc. reflexivity.
    + replace (t2 <? tot + turnTokens y) with false by (symmetry; apply Z.ltb_ge; lia).
      apply IH.
Qed.

(** A larger token budget never keeps fewer turns: the turns kept under a
    budget [t1] are a suffix of those kept under any [t2 >= t1]. *)
Theorem trimHistoryByTokens_budget_monotone (h : list Turn) (t1 t2 : Z) :
  t1 <= t2 -> exists mid, trimHistoryByTokens h t2 = mid ++ trimHistoryByTokens h t1.
Proof. intros Ht. rewrite !trimHistoryByTokens_loop. apply trimLoop_mono, Ht. Qed.

Lemma trim_bounds (h : list Turn) (m : nat) (t : Z) :
  m <> 0%nat ->
  (List.length (trim h m t) <= m)%nat /\ (trim h m t = [] \/ total (trim h m t) <= t).
Proof.
  intros Hm. unfold trim. set (x := js_slice_from (- Z.of_nat m) h).
  pose proof (trim_slice_length h m Hm) as Hx. fold x in Hx.
  destruct (trimHistoryByTokens_budget x t) as [_ [pre [kept [Hs [Hk [Hb _]]]]]].
  rewrite Hk. split; [|exact Hb].
  apply (f_equal (@List.length Turn)) in Hs. rewrite length_app in Hs. lia.
Qed.

(** [ChatService.trimHistory] keeps at most 30 turns and
    [trimHistory] of the chat route at most 20; in both, the kept turns
    cost at most 8000 estimated tokens (or none is kept). *)
Theorem trimHistory_callers_bounds (h : list Turn) :
  (List.length (trimHistory h) <= 30)%nat /\
  (trimHistory h = [] \/ total (trimHistory h) <= 8000) /\
  (List.length (routeTrimHistory h) <= 20)%nat /\
  (routeTrimHistory h = [] \/ total (routeTrimHistory h) <= 8000).
Proof.
  destruct (trim_bounds h MAX_HISTORY_MESSAGES 8000) as [H1 H2]; [discriminate|].
  destruct (trim_bounds h ROUTE_MAX_HISTORY_MESSAGES 8000) as [H3 H4]; [discriminate|].
  unfold trimHistory, routeTrimHistory. auto.
Qed.

End TokensMoreFacts.

(** ** Concrete instances of the properties above *)
Module MoreExamples.
Import RateLimit RateLimitMore.
Local Open Scope string_scope.

(** A limiter with one token refilled at half a token per second: ["u"] is
    admitted at time 1000, refused at 2000 (half a token), admitted again
    [retryAfter = 1] second later. *)
Definition rlMax : Q := 1.
Definition rlRate : Q := 1 # 2.
Definition rl1 : Buckets := snd (check rlMax rlRate "u" 1000 []).
Definition rl2 : Buckets := snd (check rlMax rlRate "v" 1500 rl1).

Lemma rl1_reachable : reachable rlMax rlRate rl1.
Proof. apply reach_check; [reflexivity | apply reach_init]. Qed.

Lemma rl2_reachable : reachable rlMax rlRate rl2.
Proof. apply reach_check; [reflexivity | apply rl1_reachable]. Qed.

Lemma reset_then_check_witness :
  reachable rlMax rlRate rl2 /\
  fst (check rlMax rlRate "u" 1700 (reset "u" rl2)) = mkResult true (rlMax - 1) None.
Proof.
  split; [exact rl2_reachable|].
  exact (proj1 (reset_then_check rlMax rlRate rl2 "u" 1700 rl2_reachable)).
Defined.

Lemma check_reset_other_keys_witness :
  JsMap.get "v" (snd (check rlMax rlRate "u" 2000 rl2)) = JsMap.get "v" rl2 /\
  JsMap.get "v" (reset "u" rl2) = JsMap.get "v" rl2.
Proof. apply check_reset_other_keys. discriminate. Defined.

Lemma cleanup_removes_stale_witness :
  JsMap.get "u" (cleanup 301001 rl2) = None /\
  JsMap.get "v" (cleanup 301001 rl2) = JsMap.get "v" rl2.
Proof.
  split.
  - rewrite (cleanup_removes_stale rlMax rlRate rl2 301001 "u" rl2_reachable).
    vm_compute. reflexivity.
  - rewrite (cleanup_removes_stale rlMax rlRate rl2 301001 "v" rl2_reachable).
    vm_compute. reflexivity.
Defined.

Lemma rateGate_retry_positive_witness :
  fst (Service.rateGate rlMax rlRate "u" 2000 rl2) = Some 1%Z /\ (1 <= 1)%Z.
Proof.
  assert (Hg : fst (Service.rateGate rlMax rlRate "u" 2000 rl2) = Some 1%Z)
    by (vm_compute; reflexivity).
  split; [exact Hg|].
  exact (proj2 (ServiceFacts.rateGate_retry_positive rlMax rlRate "u" 2000 rl2 eq_refl) 1%Z Hg).
Defined.

End MoreExamples.

Module MoreLRUExamples.
Import LRU LRUMoreFacts.
Local Open Scope string_scope.

(** Capacity 2, no TTL: inserting ["a"], ["b"], ["c"] keeps ["b"], ["c"]. *)
Definition o2 : Options := mkOptions 2 None false.
Definition xs3 : list (string * nat * Z) := [("a", 1%nat, 1); ("b", 2%nat, 2); ("c", 3%nat, 3)].

Lemma set_distinct_keeps_latest_witness :
  JsMap.keys (run o2 (map (fun x => (OSet (fst (fst x)) (snd (fst x)), snd x)) xs3) [])
    = ["b"; "c"].
Proof.
  refine (set_distinct_keeps_latest o2 xs3 _ _).
  - vm_compute. discriminate.
  - repeat constructor; simpl; intuition discriminate.
Defined.

(** With ["a"], ["b"] stored, reading ["a"] makes the insertion of ["c"]
    evict ["b"] instead. *)
Definition tr2 : list (Op nat * Z) := [(OSet "a" 1%nat, 1); (OSet "b" 2%nat, 2)].

Lemma get_protects_from_eviction_witness :
  JsMap.has "a" (fst (set o2 "c" 3%nat 4 (snd (fst (get o2 "a" 3 (run o2 tr2 [])))))) = true.
Proof.
  refine (get_protects_from_eviction o2 tr2 "a" "c" (mkCE 1%nat 1) 3%nat 3 4 _ _ _).
  - vm_compute. reflexivity.
  - vm_compute. reflexivity.
  - vm_compute. lia.
Defined.

End MoreLRUExamples.

Module MoreSessionExamples.
Import Sessions SessionOps SessionMoreFacts SessionExamples.
Local Open Scope string_scope.

Definition st2 : Store (Handle:=nat) (Content:=nat) :=
  set DEFAULT_CONFIG "b" 2%nat [] 2000 (set DEFAULT_CONFIG "a" 1%nat [7%nat] 1000 []).

Lemma session_set_then_get_witness :
  fst (get DEFAULT_CONFIG "a" 1801000 (set DEFAULT_CONFIG "a" 1%nat [7%nat] 1000 []))
    = Some 1%nat.
Proof.
  refine (proj1 (SessionMoreFacts.session_set_then_get DEFAULT_CONFIG "a" 1%nat [7%nat] 1000 1801000
                   (Content:=nat) [] _)).
  vm_compute. discriminate.
Defined.

Lemma cleanup_removes_expired_witness :
  JsMap.keys (cleanup DEFAULT_CONFIG 1801500 st2) = ["b"].
Proof.
  rewrite (cleanup_removes_expired DEFAULT_CONFIG 1801500 st2).
  - vm_compute. reflexivity.
  - vm_compute. repeat constructor; simpl; intuition discriminate.
Defined.

End MoreSessionExamples.

Module MoreTokensExamples.
Import Tokens TokensMore TokensMoreFacts TokensClaims.

Lemma trimHistoryByTokens_budget_monotone_witness :
  exists mid, trimHistoryByTokens h25 100 = mid ++ trimHistoryByTokens h25 50.
Proof. apply trimHistoryByTokens_budget_monotone. lia. Defined.

Local Open Scope string_scope.

Definition wh : list WorkerMsg :=
  [mkWorkerMsg "user" (Some [WText "hello there"; WNoText]);
   mkWorkerMsg "model" (Some [WText "hi"])].

Lemma workerTrimHistory_agrees_witness :
  forallb workerMsgPlain wh = true /\
  map workerToTurn (workerTrimHistory (Some 20%Z) (Some wh))
    = trimHistoryByTokens (map workerToTurn wh) 20.
Proof.
  assert (H : forallb workerMsgPlain wh = true) by reflexivity.
  split; [exact H|].
  apply (proj1 (workerTrimHistory_agrees wh H) 20%Z). discriminate.
Defined.

(** Outside [workerMsgPlain] the two trims differ: a part whose [text] is
    [undefined] costs nothing in the worker but ["undefined"] (3 tokens) in
    [extractText], so with a budget of 10 the worker keeps the message and
    [trimHistoryByTokens] drops it. *)
Lemma workerTrimHistory_undefined_text :
  let h := [mkWorkerMsg "user" (Some [WUndefinedText])] in
  workerTrimHistory (Some 10%Z) (Some h) = h /\
  trimHistoryByTokens (map workerToTurn h) 10 = [].
Proof. split; vm_compute; reflexivity. Qed.

End MoreTokensExamples.

Module MoreServiceExamples.
Import Service ServiceFacts.
Local Open Scope string_scope.

(** A chat handle that records the length of the history it started on. *)
Definition startLen (h : list Tokens.Turn) : nat := List.length h.

Definition noSessions : Sessions.Store (Handle:=nat) (Content:=Tokens.Turn) := [].

Lemma sessionStep_second_request_reuses_witness :
  (1500 - 1000 <= Sessions.sessionTimeout Sessions.DEFAULT_CONFIG)%Z /\
  fst (sessionStep Sessions.DEFAULT_CONFIG startLen "u"
         [Tokens.mkTurn "user" [Tokens.TextPart "hi"]] 1500
         (snd (sessionStep Sessions.DEFAULT_CONFIG startLen "u" [] 1000 noSessions))) = 0%nat.
Proof.
  assert (Ht : (1500 - 1000 <= Sessions.sessionTimeout Sessions.DEFAULT_CONFIG)%Z)
    by (vm_compute; discriminate).
  split; [exact Ht|].
  pose proof (sessionStep_second_request_reuses Sessions.DEFAULT_CONFIG startLen "u" []
                [Tokens.mkTurn "user" [Tokens.TextPart "hi"]] 1000 1500 noSessions Ht) as [E _].
  cbv zeta in E. rewrite E. reflexivity.
Defined.

End MoreServiceExamples.
